(** * The coroutine byte-stream parser of [02.10-coroutineParsingDataStream0]

    A shallow embedding of [main.cpp]: the [Parse] coroutine behind
    [async_generator<std::string, byte>], the [sender] coroutine behind
    [generator<byte>] with its iterator, the driver [ProcessStream] and
    [main].  A coroutine is a record of its suspension point (with the
    locals that are live there) and its promise object; [resume] runs the
    body from that point to the next suspension. *)

From Stdlib Require Import String Ascii List Bool Arith NArith ZArith Lia.
From Stdlib.Strings Require Import Byte.
From Equations Require Import Equations.
Import ListNotations.

Local Open Scope string_scope.
Local Open Scope list_scope.

(** ** Results of operations that can go wrong

    [Fault] stands for the two ways the C++ code leaves defined behaviour:
    the failed [assert] of [await_resume] and the resumption of a coroutine
    that is suspended at its final suspend point. *)

Inductive result (A : Type) : Type :=
| Ok (a : A)
| Fault.

Arguments Ok {A} a.
Arguments Fault {A}.

Definition bind {A B : Type} (r : result A) (k : A -> result B) : result B :=
  match r with
  | Ok a => k a
  | Fault => Fault
  end.

Notation "x <- r ;; k" := (bind r (fun x => k))
  (at level 61, r at next level, right associativity).
Notation "' p <- r ;; k" := (bind r (fun p => k))
  (at level 61, p pattern, r at next level, right associativity).

(** ** Bytes and the two reserved values *)

(** [operator ""_B(char)]: [static_cast<byte>(c)]. *)
Definition B_char (c : ascii) : byte := byte_of_ascii c.

(** [operator ""_B(unsigned long long)]: [static_cast<byte>(c)], which keeps
    the low eight bits. *)
Definition B_ull (c : N) : byte :=
  match Byte.of_N (N.modulo c 256) with
  | Some b => b
  | None => x00
  end.

(** [static const byte ESC{'H'}] and [static const byte SOF{0x10}]. *)
Definition ESC : byte := byte_of_ascii "H"%char.
Definition SOF : byte := x10.

(** [frame += static_cast<char>(b)]. *)
Definition push_back (frame : string) (b : byte) : string :=
  frame ++ String (ascii_of_byte b) EmptyString.

(** The text made of the given bytes, appended to [frame] one by one. *)
Definition append_bytes (frame : string) (bs : list byte) : string :=
  fold_left push_back bs frame.

(** ** The promise of [async_generator<std::string, byte>]

    [promise_type_base<std::string, G, awaitable_promise_type_base<byte>>]:
    the yielded value and the slot of the most recent signal. *)

Record promise_type : Type := mkPromise {
  mValue : string;
  mRecentSignal : option byte
}.

(** [yield_value]: [mValue = value], then [suspend_always]. *)
Definition yield_value (value : string) (p : promise_type) : promise_type :=
  {| mValue := value; mRecentSignal := mRecentSignal p |}.

(** [awaiter::await_ready]: [mRecentSignal.has_value()]. *)
Definition await_ready (p : promise_type) : bool :=
  match mRecentSignal p with
  | Some _ => true
  | None => false
  end.

(** [awaiter::await_resume]: asserts that the slot is full, takes the byte
    out and resets the slot. *)
Definition await_resume (p : promise_type) : result (byte * promise_type) :=
  match mRecentSignal p with
  | Some tmp => Ok (tmp, {| mValue := mValue p; mRecentSignal := None |})
  | None => Fault
  end.

(** Number of bytes waiting in the slot. *)
Definition pending (p : promise_type) : nat :=
  if await_ready p then 1 else 0.

(** ** The coroutine [Parse] *)

(** The four [co_await byte{}] expressions of [Parse], each with the local
    [frame] as it is when control is there:
    [AwaitFirst] is line 175 ([frame] not yet declared),
    [AwaitSOF] line 179, [AwaitData] line 184, [AwaitEscaped] line 188. *)
Inductive await_point : Type :=
| AwaitFirst
| AwaitSOF (frame : string)
| AwaitData (frame : string)
| AwaitEscaped (frame : string).

(** Where a [Parse] coroutine can be suspended: at [initial_suspend], inside
    one of the [co_await]s, inside [co_yield frame] (line 191), or at
    [final_suspend]. *)
Inductive suspend_point : Type :=
| InitialSuspend
| Awaiting (a : await_point)
| Yielded (frame : string)
| FinalSuspend.

Record coroutine : Type := mkCoroutine {
  point : suspend_point;
  promise : promise_type
}.

(** [coroutine_handle::done]. *)
Definition done (c : coroutine) : bool :=
  match point c with
  | FinalSuspend => true
  | _ => false
  end.

(** What the body reaches next: another [co_await], or [co_yield frame]. *)
Inductive reached : Type :=
| ToAwait (a : await_point)
| ToYield (frame : string).

(** The code of [Parse] between the [co_await] at [a] returning [b] and the
    next [co_await] or [co_yield]. *)
Definition Parse_body (a : await_point) (b : byte) : reached :=
  match a with
  | AwaitFirst =>
      (* byte b = co_await byte{}; std::string frame{}; if (ESC == b) *)
      if Byte.eqb ESC b then ToAwait (AwaitSOF EmptyString)
      else ToAwait AwaitFirst
  | AwaitSOF frame =>
      (* if (SOF != b) { continue; } *)
      if negb (Byte.eqb SOF b) then ToAwait AwaitFirst
      else ToAwait (AwaitData frame)
  | AwaitData frame =>
      (* if (ESC == b) { b = co_await byte{}; ... } frame += b *)
      if Byte.eqb ESC b then ToAwait (AwaitEscaped frame)
      else ToAwait (AwaitData (push_back frame b))
  | AwaitEscaped frame =>
      (* if (SOF == b) { co_yield frame; break; }
         else if (ESC != b) { break; }
         frame += b *)
      if Byte.eqb SOF b then ToYield frame
      else if negb (Byte.eqb ESC b) then ToAwait AwaitFirst
      else ToAwait (AwaitData (push_back frame b))
  end.

(** A value together with the equation that says where it came from, so
    that the termination proof below knows which promise was read. *)
Definition inspect {A : Type} (a : A) : {b : A | a = b} :=
  exist _ a eq_refl.

(** Control is at the [co_await] of [a].  When the coroutine arrives there
    ([resumed = false]) [await_ready] decides whether it suspends; when it
    is resumed there, or did not suspend, [await_resume] takes the byte and
    the body runs on to the next [co_await] or to [co_yield]. *)
Equations? co_await (resumed : bool) (a : await_point) (p : promise_type)
  : result coroutine by wf (pending p) lt :=
co_await resumed a p with inspect (resumed || await_ready p) := {
  | exist _ false _ => Ok {| point := Awaiting a; promise := p |};
  | exist _ true _ with inspect (await_resume p) := {
    | exist _ Fault _ => Fault;
    | exist _ (Ok (b, p')) _ with Parse_body a b := {
      | ToAwait a' => co_await false a' p';
      | ToYield frame =>
          Ok {| point := Yielded frame; promise := yield_value frame p' |} } } }.
Proof.
  unfold await_resume in *. unfold pending, await_ready.
  destruct (mRecentSignal p); [| discriminate].
  match goal with H : Ok _ = Ok _ |- _ => inversion H; subst end.
  simpl. lia.
Qed.

(** [coroutine_handle::resume]. *)
Definition resume (c : coroutine) : result coroutine :=
  match point c with
  | InitialSuspend =>
      (* the body starts: while (true) { byte b = co_await byte{}; *)
      co_await false AwaitFirst (promise c)
  | Awaiting a => co_await true a (promise c)
  | Yielded _ =>
      (* break; leaves the inner loop, the outer loop starts over *)
      co_await false AwaitFirst (promise c)
  | FinalSuspend => Fault
  end.

(** ** [async_generator<std::string, byte>], named [FSM] *)

Definition FSM : Type := coroutine.

(** [FSM Parse()]: the coroutine is created suspended ([initial_suspend] is
    [suspend_always]) with a default-constructed promise. *)
Definition Parse : FSM :=
  {| point := InitialSuspend;
     promise := {| mValue := EmptyString; mRecentSignal := None |} |}.

(** [async_generator::SendSignal]. *)
Definition SendSignal (g : FSM) (signal : byte) : result FSM :=
  let g1 := {| point := point g;
               promise := {| mValue := mValue (promise g);
                             mRecentSignal := Some signal |} |} in
  if negb (done g1) then resume g1 else Ok g1.

(** [async_generator::operator()]: moves [mValue] out and clears it. *)
Definition call (g : FSM) : string * FSM :=
  let tmp := mValue (promise g) in
  (tmp, {| point := point g;
           promise := {| mValue := EmptyString;
                         mRecentSignal := mRecentSignal (promise g) |} |}).

(** ** [generator<byte>] and the coroutine [sender] *)

Module ByteGenerator.

(** [promise_type_base<byte, generator>]: [mValue] is not initialised
    before the first [co_yield]. *)
Record promise_type : Type := mkPromise {
  mValue : option byte
}.

(** [yield_value]. *)
Definition yield_value (value : byte) (_ : promise_type) : promise_type :=
  {| mValue := Some value |}.

(** Where [sender] can be suspended: at [initial_suspend], inside
    [co_yield b] (line 207) with [rest] the elements of [fakeBytes] that
    come after [b], or at [final_suspend]. *)
Inductive suspend_point : Type :=
| InitialSuspend
| Yielded (rest : list byte)
| FinalSuspend.

Record coroutine : Type := mkCoroutine {
  point : suspend_point;
  fakeBytes : list byte;
  promise : promise_type
}.

Definition done (c : coroutine) : bool :=
  match point c with
  | FinalSuspend => true
  | _ => false
  end.

(** [generator<byte> sender(std::vector<byte> fakeBytes)]: created
    suspended, the vector stored in the coroutine frame. *)
Definition sender (fakeBytes : list byte) : coroutine :=
  {| point := InitialSuspend;
     fakeBytes := fakeBytes;
     promise := {| mValue := None |} |}.

(** [for (const auto &b : fakeBytes) { co_yield b; }] with the elements
    [rest] still to visit; past the last one the body ends and the
    coroutine stops at [final_suspend]. *)
Definition for_loop (rest : list byte) (c : coroutine) : coroutine :=
  match rest with
  | b :: rest' =>
      {| point := Yielded rest';
         fakeBytes := fakeBytes c;
         promise := yield_value b (promise c) |}
  | [] =>
      {| point := FinalSuspend;
         fakeBytes := fakeBytes c;
         promise := promise c |}
  end.

(** [coroutine_handle::resume]. *)
Definition resume (c : coroutine) : result coroutine :=
  match point c with
  | InitialSuspend => Ok (for_loop (fakeBytes c) c)
  | Yielded rest => Ok (for_loop rest c)
  | FinalSuspend => Fault
  end.

(** A coroutine handle of an iterator: null, or the handle of the
    generator's coroutine, whose state the generator and all its
    iterators share. *)
Inductive coro_handle : Type :=
| nullptr
| handle.

(** [coro_iterator::iterator]. *)
Record iterator : Type := mkIterator {
  mCoroHdl : coro_handle;
  mDone : bool
}.

(** [iterator::resume]: [mCoroHdl.resume(); mDone = mCoroHdl.done()]. *)
Definition iterator_resume (it : iterator) (c : coroutine)
  : result (iterator * coroutine) :=
  match mCoroHdl it with
  | nullptr => Fault
  | handle =>
      c' <- resume c ;;
      Ok ({| mCoroHdl := handle; mDone := done c' |}, c')
  end.

(** [generator::begin]: [iterator(coro_handle hco)], which resumes. *)
Definition begin (c : coroutine) : result (iterator * coroutine) :=
  iterator_resume {| mCoroHdl := handle; mDone := true |} c.

(** [generator::end]: the default iterator. *)
Definition end_ : iterator := {| mCoroHdl := nullptr; mDone := true |}.

(** [iterator::operator++]. *)
Definition incr (it : iterator) (c : coroutine)
  : result (iterator * coroutine) :=
  iterator_resume it c.

(** [iterator::operator==]. *)
Definition iterator_eq (it o : iterator) : bool :=
  Bool.eqb (mDone it) (mDone o).

(** [iterator::operator*]: [mCoroHdl.promise().mValue]. *)
Definition deref (it : iterator) (c : coroutine) : result byte :=
  match mCoroHdl it with
  | nullptr => Fault
  | handle =>
      match mValue (promise c) with
      | Some b => Ok b
      | None => Fault
      end
  end.

(** Resumptions the coroutine can still take. *)
Definition remaining (c : coroutine) : nat :=
  match point c with
  | InitialSuspend => S (length (fakeBytes c))
  | Yielded rest => S (length rest)
  | FinalSuspend => 0
  end.

End ByteGenerator.

(** ** The driver *)

(** [HandleFrame] prints the frame; the log holds the frames it was called
    with, in order. *)
Definition HandleFrame (frame : string) (log : list string) : list string :=
  log ++ [frame].

(** The body of the loop of [ProcessStream] for the byte [b]. *)
Definition ProcessStream_body (b : byte) (parse : FSM) (log : list string)
  : result (FSM * list string) :=
  parse1 <- SendSignal parse b ;;
  let (res, parse2) := call parse1 in
  Ok (parse2, if negb (Nat.eqb (String.length res) 0) then HandleFrame res log else log).

(** [for (const auto &b : stream)] from the iterator [it] on:
    [it != end()], [b = *it], the body, [++it]. *)
Equations? ProcessStream_loop (it : ByteGenerator.iterator)
    (stream : ByteGenerator.coroutine) (parse : FSM) (log : list string)
  : result (ByteGenerator.coroutine * FSM * list string)
  by wf (ByteGenerator.remaining stream) lt :=
ProcessStream_loop it stream parse log
  with ByteGenerator.iterator_eq it ByteGenerator.end_ := {
  | true => Ok (stream, parse, log);
  | false with ByteGenerator.deref it stream := {
    | Fault => Fault;
    | Ok b with ProcessStream_body b parse log := {
      | Fault => Fault;
      | Ok (parse', log') with inspect (ByteGenerator.incr it stream) := {
        | exist _ Fault _ => Fault;
        | exist _ (Ok (it', stream')) _ =>
            ProcessStream_loop it' stream' parse' log' } } } }.
Proof.
  (* [++it] resumes the coroutine, which then has fewer resumptions left *)
  match goal with H : ByteGenerator.incr _ _ = Ok _ |- _ => revert H end.
  unfold ByteGenerator.incr, ByteGenerator.iterator_resume,
    ByteGenerator.resume, ByteGenerator.remaining.
  destruct (ByteGenerator.mCoroHdl it); [discriminate |].
  destruct (ByteGenerator.point stream) as [| rest |]; cbn [bind];
    intros H; inversion H; subst; clear H.
  - destruct (ByteGenerator.fakeBytes stream); cbn; lia.
  - destruct rest; cbn; lia.
Qed.

(** [void ProcessStream(generator<byte> &stream, FSM &parse)]. *)
Definition ProcessStream (stream : ByteGenerator.coroutine) (parse : FSM)
    (log : list string)
  : result (ByteGenerator.coroutine * FSM * list string) :=
  '(it, stream1) <- ByteGenerator.begin stream ;;
  ProcessStream_loop it stream1 parse log.

(** ** [main] *)

Definition fakeBytes1 : list byte :=
  [B_ull 0x70; ESC; SOF; ESC;
   B_char "H"; B_char "e"; B_char "l"; B_char "l"; B_char "o";
   ESC; SOF; B_ull 0x7; ESC; SOF].

Definition fakeBytes2 : list byte :=
  [B_char "W"; B_char "o"; B_char "r"; B_char "l"; B_char "d";
   ESC; SOF; B_ull 0x99].

(** [main], returning the parser it leaves behind and the frames handled. *)
Definition main : result (FSM * list string) :=
  let p := Parse in
  let stream1 := ByteGenerator.sender fakeBytes1 in
  '(_, p, log) <- ProcessStream stream1 p [] ;;
  let stream2 := ByteGenerator.sender fakeBytes2 in
  '(_, p, log) <- ProcessStream stream2 p log ;;
  Ok (p, log).

(** ** Observations used by the statements *)

(** The parser states of the specification, as names for the places where
    [Parse] can be suspended.  The coroutine is ready for the first byte of
    a start sequence before it has run, at the first [co_await], and inside
    [co_yield]: all three are [Idle]. *)
Inductive parser_state : Type :=
| Idle
| AwaitingSOF
| Capturing
| CapturingAfterEsc.

Definition state_of (pt : suspend_point) : option parser_state :=
  match pt with
  | InitialSuspend => Some Idle
  | Awaiting AwaitFirst => Some Idle
  | Awaiting (AwaitSOF _) => Some AwaitingSOF
  | Awaiting (AwaitData _) => Some Capturing
  | Awaiting (AwaitEscaped _) => Some CapturingAfterEsc
  | Yielded _ => Some Idle
  | FinalSuspend => None
  end.

(** The frame the coroutine handed to [co_yield] during the resumption that
    left it in [g]: it is suspended inside [co_yield] exactly then. *)
Definition yielded (g : FSM) : list string :=
  match point g with
  | Yielded frame => [frame]
  | _ => []
  end.

(** The frames [Parse] yields while the driver loop runs over the bytes
    [bs]: each byte is signalled, then the parser is polled. *)
Fixpoint emitted (bs : list byte) (parse : FSM) : list string :=
  match bs with
  | [] => []
  | b :: bs' =>
      match SendSignal parse b with
      | Ok parse1 => yielded parse1 ++ emitted bs' (snd (call parse1))
      | Fault => []
      end
  end.

(** The loop of [ProcessStream] over the bytes [bs] themselves. *)
Fixpoint feed (bs : list byte) (parse : FSM) (log : list string)
  : result (FSM * list string) :=
  match bs with
  | [] => Ok (parse, log)
  | b :: bs' =>
      '(parse', log') <- ProcessStream_body b parse log ;;
      feed bs' parse' log'
  end.

(** Signalling the bytes [bs] one after the other with no poll in between;
    the result carries the frames yielded on the way. *)
Fixpoint signal_all (bs : list byte) (g : FSM) : result (FSM * list string) :=
  match bs with
  | [] => Ok (g, [])
  | b :: bs' =>
      g1 <- SendSignal g b ;;
      '(g', frames) <- signal_all bs' g1 ;;
      Ok (g', yielded g1 ++ frames)
  end.

(** The [co_await] at which a resumed coroutine takes its next byte. *)
Definition entry_point (pt : suspend_point) : await_point :=
  match pt with
  | Awaiting a => a
  | _ => AwaitFirst
  end.

(** The coroutine after one signalled byte, written out. *)
Definition delivered (g : FSM) (b : byte) : FSM :=
  match point g with
  | FinalSuspend =>
      {| point := FinalSuspend;
         promise := {| mValue := mValue (promise g);
                       mRecentSignal := Some b |} |}
  | pt =>
      match Parse_body (entry_point pt) b with
      | ToAwait a =>
          {| point := Awaiting a;
             promise := {| mValue := mValue (promise g);
                           mRecentSignal := None |} |}
      | ToYield frame =>
          {| point := Yielded frame;
             promise := {| mValue := frame; mRecentSignal := None |} |}
      end
  end.

(** A parser between two turns of the driver loop: suspended at [pt], the
    signal taken and the value polled. *)
Definition quiet (pt : suspend_point) : FSM :=
  {| point := pt;
     promise := {| mValue := EmptyString; mRecentSignal := None |} |}.

(** Where one byte takes the coroutine. *)
Definition next (pt : suspend_point) (b : byte) : suspend_point :=
  match Parse_body (entry_point pt) b with
  | ToAwait a => Awaiting a
  | ToYield frame => Yielded frame
  end.

(** What the driver does with the value it polled. *)
Definition handled (pt : suspend_point) (log : list string) : list string :=
  match pt with
  | Yielded frame =>
      if negb (Nat.eqb (String.length frame) 0)
      then HandleFrame frame log else log
  | _ => log
  end.

(** The frames the driver hands to [HandleFrame] when the frame with the
    bytes [data] is completed: none when it is empty. *)
Definition frames_handled (data : list byte) : list string :=
  match data with
  | [] => []
  | _ :: _ => [string_of_list_byte data]
  end.

(** What the first poll of a driver does with the value [g] holds when the
    driver starts. *)
Definition stale (g : FSM) (log : list string) : list string :=
  if negb (Nat.eqb (String.length (mValue (promise g))) 0)
  then HandleFrame (mValue (promise g)) log else log.

(** The generator of [sender] after its loop has visited [rest]. *)
Fixpoint drained (rest : list byte) (c : ByteGenerator.coroutine)
  : ByteGenerator.coroutine :=
  match rest with
  | [] => ByteGenerator.for_loop [] c
  | _ :: rest' => drained rest' (ByteGenerator.for_loop rest c)
  end.

(** The iterator reached from [begin] by [n] increments. *)
Fixpoint nth_iterator (n : nat) (c : ByteGenerator.coroutine)
  : result (ByteGenerator.iterator * ByteGenerator.coroutine) :=
  match n with
  | 0 => ByteGenerator.begin c
  | S n' =>
      '(it, c') <- nth_iterator n' c ;;
      ByteGenerator.incr it c'
  end.

(** ** The sending side of the framing

    What a sender has to put on the wire for [Parse] to hand back a given
    frame, as [main] does by hand for Hello: [ESC], [SOF] before and after,
    and [ESC] before every data byte that is [ESC] itself. *)

Definition stuff (data : list byte) : list byte :=
  flat_map (fun d => if Byte.eqb ESC d then [ESC; d] else [d]) data.

Definition encode (data : list byte) : list byte :=
  ESC :: SOF :: stuff data ++ [ESC; SOF].

(** A stream of frames, each one after some bytes that belong to no
    frame. *)
Definition stream_of (parts : list (list byte * list byte)) : list byte :=
  flat_map (fun part => fst part ++ encode (snd part)) parts.

(** The predicate of [if (res.length())] in [ProcessStream]. *)
Definition has_length (res : string) : bool :=
  negb (Nat.eqb (String.length res) 0).

(** How many bytes of the shortest frame, [ESC], [SOF], [ESC], [SOF], the
    coroutine has behind it at a suspension point. *)
Definition progress (pt : suspend_point) : nat :=
  match pt with
  | Awaiting (AwaitSOF _) => 1
  | Awaiting (AwaitData _) => 2
  | Awaiting (AwaitEscaped _) => 3
  | _ => 0
  end.

(** ** [01.12-simpleRequirement0]: [add] *)

Module SimpleRequirement.

(** The values of [int]. *)
Definition INT_MIN : Z := (-2147483648)%Z.
Definition INT_MAX : Z := 2147483647%Z.

Definition in_int (z : Z) : bool :=
  (Z.leb INT_MIN z && Z.leb z INT_MAX)%bool.

(** The built-in [+] on [int]: a sum outside of [int] is undefined
    behaviour. *)
Definition plus (x y : Z) : result Z :=
  if in_int (x + y) then Ok (x + y)%Z else Fault.

(** [add(arg, args...)] at [int] arguments: the left fold [(... + args)],
    that is [((arg + a1) + a2) + ...].  The pack has at least one element,
    the fold over an empty pack being ill-formed. *)
Definition add (arg : Z) (args : list Z) : result Z :=
  fold_left (fun acc y => x <- acc ;; plus x y) args (Ok arg).

(** The sum of the first [k] of [args], on top of [arg]. *)
Definition running_sum (arg : Z) (args : list Z) (k : nat) : Z :=
  fold_left Z.add (firstn k args) arg.

End SimpleRequirement.

(** * Properties *)

(** ** Bytes *)

#[local] Arguments Byte.eqb : simpl never.

Lemma eqb_neq (a b : byte) : a <> b -> Byte.eqb a b = false.
Proof.
  intros Hne. destruct (Byte.eqb a b) eqn:E; [| reflexivity].
  apply byte_dec_bl in E. contradiction.
Qed.

Lemma eqb_neq_sym (a b : byte) : b <> a -> Byte.eqb a b = false.
Proof. intros Hne. apply eqb_neq. congruence. Qed.

(** ** One resumption *)

Lemma co_await_suspends (a : await_point) (v : string) :
  co_await false a {| mValue := v; mRecentSignal := None |} =
  Ok {| point := Awaiting a;
        promise := {| mValue := v; mRecentSignal := None |} |}.
Proof. now simp co_await. Qed.

Lemma co_await_takes (resumed : bool) (a : await_point) (v : string) (b : byte) :
  co_await resumed a {| mValue := v; mRecentSignal := Some b |} =
  match Parse_body a b with
  | ToAwait a' =>
      Ok {| point := Awaiting a';
            promise := {| mValue := v; mRecentSignal := None |} |}
  | ToYield frame =>
      Ok {| point := Yielded frame;
            promise := {| mValue := frame; mRecentSignal := None |} |}
  end.
Proof.
  destruct resumed; rewrite co_await_equation_1; cbn;
    destruct (Parse_body a b) as [a' | frame]; cbn;
    solve [apply co_await_suspends | reflexivity].
Qed.

Lemma SendSignal_delivered (g : FSM) (b : byte) :
  SendSignal g b = Ok (delivered g b).
Proof.
  destruct g as [pt [v sig]]. unfold SendSignal, delivered, resume, done.
  destruct pt as [| a | frame |];
    cbn [point promise mValue mRecentSignal entry_point negb];
    try reflexivity;
    rewrite co_await_takes;
    match goal with |- context [Parse_body ?x ?y] =>
      destruct (Parse_body x y) end; reflexivity.
Qed.

(** ** One turn of the driver loop *)

Lemma delivered_point (g : FSM) (b : byte) :
  point g <> FinalSuspend -> point (delivered g b) = next (point g) b.
Proof.
  intros Hlive. unfold delivered, next.
  destruct (point g); try contradiction;
    match goal with |- context [Parse_body ?x ?y] =>
      destruct (Parse_body x y) end; reflexivity.
Qed.

Lemma delivered_polled (g : FSM) (b : byte) :
  point g <> FinalSuspend ->
  snd (call (delivered g b)) = quiet (next (point g) b).
Proof.
  intros Hlive. unfold delivered, next, quiet, call.
  destruct (point g); try contradiction;
    match goal with |- context [Parse_body ?x ?y] =>
      destruct (Parse_body x y) end; reflexivity.
Qed.

Lemma body_turn (g : FSM) (b : byte) (log : list string) :
  point g <> FinalSuspend ->
  mValue (promise g) = EmptyString ->
  ProcessStream_body b g log =
  Ok (quiet (next (point g) b), handled (next (point g) b) log).
Proof.
  intros Hlive Hpolled. unfold ProcessStream_body.
  rewrite SendSignal_delivered. cbn [bind].
  unfold delivered, next, quiet, call, handled.
  destruct (point g); try contradiction;
    match goal with |- context [Parse_body ?x ?y] =>
      destruct (Parse_body x y) end;
    cbn [point promise mValue mRecentSignal]; rewrite ?Hpolled; reflexivity.
Qed.

Lemma feed_cons (g : FSM) (b : byte) (bs : list byte) (log : list string) :
  point g <> FinalSuspend ->
  mValue (promise g) = EmptyString ->
  feed (b :: bs) g log =
  feed bs (quiet (next (point g) b)) (handled (next (point g) b) log).
Proof.
  intros Hlive Hpolled. cbn [feed]. now rewrite body_turn.
Qed.

Lemma emitted_cons (g : FSM) (b : byte) (bs : list byte) :
  point g <> FinalSuspend ->
  emitted (b :: bs) g =
  yielded (quiet (next (point g) b)) ++ emitted bs (quiet (next (point g) b)).
Proof.
  intros Hlive. cbn [emitted]. rewrite SendSignal_delivered.
  rewrite delivered_polled by assumption.
  unfold yielded at 1. now rewrite delivered_point.
Qed.

Lemma next_live (pt : suspend_point) (b : byte) : next pt b <> FinalSuspend.
Proof.
  unfold next. destruct (Parse_body (entry_point pt) b); discriminate.
Qed.

Lemma idle_live (pt : suspend_point) :
  state_of pt = Some Idle -> pt <> FinalSuspend.
Proof. intros H ->. discriminate. Qed.

Lemma idle_entry (pt : suspend_point) :
  state_of pt = Some Idle -> entry_point pt = AwaitFirst.
Proof.
  destruct pt as [| [| | |] | |]; cbn; intros H;
    solve [reflexivity | discriminate].
Qed.

(** ** Several turns *)

Lemma feed_app (A B : list byte) (g : FSM) (log : list string) :
  feed (A ++ B) g log = '(p, l) <- feed A g log ;; feed B p l.
Proof.
  revert g log. induction A as [| a A IH]; intros g log; cbn [app feed bind].
  - reflexivity.
  - destruct (ProcessStream_body a g log) as [[p l] |]; cbn [bind].
    + apply IH.
    + reflexivity.
Qed.

Lemma emitted_app (A B : list byte) (g p : FSM) (log l : list string) :
  feed A g log = Ok (p, l) ->
  emitted (A ++ B) g = emitted A g ++ emitted B p.
Proof.
  revert g log. induction A as [| a A IH]; intros g log; cbn [app feed emitted].
  - intros H. inversion H; subst. reflexivity.
  - unfold ProcessStream_body. rewrite SendSignal_delivered. cbn [bind].
    destruct (call (delivered g a)) as [res g2] eqn:E. cbn [bind snd].
    intros H. rewrite <- app_assoc. f_equal. eapply IH. exact H.
Qed.

Lemma feed_total (bs : list byte) (g : FSM) (log : list string) :
  exists p l, feed bs g log = Ok (p, l).
Proof.
  revert g log. induction bs as [| b bs IH]; intros g log; cbn [feed].
  - now exists g, log.
  - unfold ProcessStream_body. rewrite SendSignal_delivered. cbn [bind].
    destruct (call (delivered g b)) as [res g2]. cbn [bind]. apply IH.
Qed.


(** ** The loop over a [sender] *)

Lemma ProcessStream_loop_step (it : ByteGenerator.iterator)
    (stream : ByteGenerator.coroutine) (parse : FSM) (log : list string) :
  ProcessStream_loop it stream parse log =
  if ByteGenerator.iterator_eq it ByteGenerator.end_
  then Ok (stream, parse, log)
  else
    b <- ByteGenerator.deref it stream ;;
    '(parse', log') <- ProcessStream_body b parse log ;;
    '(it', stream') <- ByteGenerator.incr it stream ;;
    ProcessStream_loop it' stream' parse' log'.
Proof.
  rewrite ProcessStream_loop_equation_1.
  destruct (ByteGenerator.iterator_eq it ByteGenerator.end_); cbn;
    [reflexivity |].
  destruct (ByteGenerator.deref it stream) as [b |]; cbn; [| reflexivity].
  destruct (ProcessStream_body b parse log) as [[parse' log'] |]; cbn;
    [| reflexivity].
  unfold inspect.
  destruct (ByteGenerator.incr it stream) as [[it' stream'] |]; cbn;
    reflexivity.
Qed.

Lemma ProcessStream_loop_yielded (rest : list byte) :
  forall (c : ByteGenerator.coroutine) (b : byte) (parse : FSM)
         (log : list string),
    ByteGenerator.point c = ByteGenerator.Yielded rest ->
    ByteGenerator.mValue (ByteGenerator.promise c) = Some b ->
    ProcessStream_loop
      {| ByteGenerator.mCoroHdl := ByteGenerator.handle;
         ByteGenerator.mDone := false |} c parse log =
    '(p, l) <- feed (b :: rest) parse log ;; Ok (drained rest c, p, l).
Proof.
  induction rest as [| b' rest IH]; intros c b parse log Hpt Hval;
    rewrite ProcessStream_loop_step;
    unfold ByteGenerator.deref, ByteGenerator.incr,
      ByteGenerator.iterator_resume, ByteGenerator.resume;
    cbn [ByteGenerator.iterator_eq ByteGenerator.end_ ByteGenerator.mDone
         ByteGenerator.mCoroHdl Bool.eqb];
    rewrite Hval, Hpt; cbn [bind feed];
    (destruct (ProcessStream_body b parse log) as [[parse' log'] |];
     cbn [bind]; [| reflexivity]).
  - cbn [ByteGenerator.for_loop ByteGenerator.done ByteGenerator.point].
    rewrite ProcessStream_loop_step. reflexivity.
  - cbn [ByteGenerator.for_loop ByteGenerator.done ByteGenerator.point].
    rewrite IH with (b := b') by reflexivity. cbn [feed drained].
    reflexivity.
Qed.

Lemma ProcessStream_sender (bs : list byte) (parse : FSM) (log : list string) :
  ProcessStream (ByteGenerator.sender bs) parse log =
  '(p, l) <- feed bs parse log ;;
  Ok (drained bs (ByteGenerator.sender bs), p, l).
Proof.
  unfold ProcessStream, ByteGenerator.begin, ByteGenerator.iterator_resume.
  cbn [ByteGenerator.mCoroHdl ByteGenerator.resume ByteGenerator.sender
       ByteGenerator.point ByteGenerator.fakeBytes bind].
  destruct bs as [| b rest].
  - cbn. rewrite ProcessStream_loop_step. reflexivity.
  - cbn [ByteGenerator.for_loop ByteGenerator.done ByteGenerator.point].
    rewrite ProcessStream_loop_yielded with (b := b) (rest := rest)
      by reflexivity.
    reflexivity.
Qed.

(** ** Frames as texts *)

Lemma string_app_assoc (s t u : string) : ((s ++ t) ++ u = s ++ (t ++ u))%string.
Proof.
  induction s as [| c s IH]; cbn; [reflexivity | now rewrite IH].
Qed.

Lemma string_app_nil (s : string) : (s ++ EmptyString)%string = s.
Proof.
  induction s as [| c s IH]; cbn; [reflexivity | now rewrite IH].
Qed.

Lemma append_bytes_text (bs : list byte) (frame : string) :
  append_bytes frame bs = (frame ++ string_of_list_byte bs)%string.
Proof.
  unfold append_bytes. revert frame.
  induction bs as [| b bs IH]; intros frame; cbn [fold_left].
  - cbn. now rewrite string_app_nil.
  - rewrite IH. unfold push_back. now rewrite string_app_assoc.
Qed.

Lemma text_app (A B : list byte) :
  string_of_list_byte (A ++ B) =
  (string_of_list_byte A ++ string_of_list_byte B)%string.
Proof.
  induction A as [| a A IH]; cbn; [reflexivity |].
  unfold string_of_list_byte in *. cbn. now rewrite <- IH.
Qed.

Lemma text_length (bs : list byte) :
  String.length (string_of_list_byte bs) = length bs.
Proof.
  induction bs as [| b bs IH]; cbn; [reflexivity |].
  unfold string_of_list_byte in *. cbn. now rewrite IH.
Qed.

Lemma handled_text (data : list byte) (log : list string) :
  handled (Yielded (string_of_list_byte data)) log = log ++ frames_handled data.
Proof.
  unfold handled, HandleFrame, frames_handled. rewrite text_length.
  destruct data; cbn; [now rewrite app_nil_r | reflexivity].
Qed.

(** ** Runs of the parser *)

Lemma next_first (b : byte) :
  b <> ESC -> next (Awaiting AwaitFirst) b = Awaiting AwaitFirst.
Proof.
  intros Hb. unfold next. cbn [entry_point Parse_body].
  now rewrite (eqb_neq_sym ESC b Hb).
Qed.

Lemma next_data (frame : string) (b : byte) :
  b <> ESC ->
  next (Awaiting (AwaitData frame)) b = Awaiting (AwaitData (push_back frame b)).
Proof.
  intros Hb. unfold next. cbn [entry_point Parse_body].
  now rewrite (eqb_neq_sym ESC b Hb).
Qed.

Lemma next_idle (pt : suspend_point) (b : byte) :
  state_of pt = Some Idle -> next pt b = next (Awaiting AwaitFirst) b.
Proof.
  intros Hidle. unfold next. now rewrite (idle_entry pt Hidle).
Qed.

Lemma stale_polled (g : FSM) (log : list string) :
  mValue (promise g) = EmptyString -> stale g log = log.
Proof. unfold stale. now intros ->. Qed.

(** A parser in Idle takes its first byte as one that waits at the first
    [co_await] does; the first poll finds what the promise held. *)
Lemma feed_idle (g : FSM) (b : byte) (bs : list byte) (log : list string) :
  state_of (point g) = Some Idle ->
  feed (b :: bs) g log =
  feed (b :: bs) (quiet (Awaiting AwaitFirst)) (stale g log).
Proof.
  intros Hidle. cbn [feed]. unfold ProcessStream_body.
  rewrite !SendSignal_delivered. cbn [bind].
  unfold delivered, stale.
  destruct g as [pt [v sig]]. cbn [point promise mValue quiet] in *.
  destruct pt as [| [| | |] | |]; try discriminate;
    cbn [entry_point Parse_body]; destruct (Byte.eqb ESC b); reflexivity.
Qed.

Lemma emitted_idle (g : FSM) (bs : list byte) :
  state_of (point g) = Some Idle ->
  emitted bs g = emitted bs (quiet (Awaiting AwaitFirst)).
Proof.
  intros Hidle. destruct bs as [| b bs]; [reflexivity |].
  rewrite emitted_cons by (auto using idle_live).
  rewrite (emitted_cons (quiet _)) by (cbn; discriminate).
  cbn [quiet point]. now rewrite next_idle.
Qed.

Lemma feed_discard (bs : list byte) (log : list string) :
  Forall (fun b => b <> ESC) bs ->
  feed bs (quiet (Awaiting AwaitFirst)) log =
  Ok (quiet (Awaiting AwaitFirst), log).
Proof.
  induction 1 as [| b bs Hb _ IH]; [reflexivity |].
  rewrite feed_cons by (cbn; solve [discriminate | reflexivity]).
  cbn [quiet point]. rewrite next_first by assumption. exact IH.
Qed.

Lemma emitted_discard (bs : list byte) :
  Forall (fun b => b <> ESC) bs ->
  emitted bs (quiet (Awaiting AwaitFirst)) = [].
Proof.
  induction 1 as [| b bs Hb _ IH]; [reflexivity |].
  rewrite emitted_cons by (cbn; discriminate).
  cbn [quiet point]. rewrite next_first by assumption. exact IH.
Qed.

Lemma feed_capture (data : list byte) :
  forall (frame : string) (log : list string),
    Forall (fun d => d <> ESC) data ->
    feed data (quiet (Awaiting (AwaitData frame))) log =
    Ok (quiet (Awaiting (AwaitData (append_bytes frame data))), log).
Proof.
  induction data as [| d data IH]; intros frame log Hdata; [reflexivity |].
  inversion Hdata as [| ? ? Hd Hrest]; subst.
  rewrite feed_cons by (cbn; solve [discriminate | reflexivity]).
  cbn [quiet point]. rewrite next_data by assumption.
  cbn [handled]. now rewrite IH.
Qed.

Lemma emitted_capture (data : list byte) :
  forall frame : string,
    Forall (fun d => d <> ESC) data ->
    emitted data (quiet (Awaiting (AwaitData frame))) = [].
Proof.
  induction data as [| d data IH]; intros frame Hdata; [reflexivity |].
  inversion Hdata as [| ? ? Hd Hrest]; subst.
  rewrite emitted_cons by (cbn; discriminate).
  cbn [quiet point]. rewrite next_data by assumption.
  cbn [yielded quiet point app]. now apply IH.
Qed.

(** The two bytes [ESC], [SOF] that open a frame. *)
Lemma feed_open (bs : list byte) (log : list string) :
  feed (ESC :: SOF :: bs) (quiet (Awaiting AwaitFirst)) log =
  feed bs (quiet (Awaiting (AwaitData EmptyString))) log.
Proof. reflexivity. Qed.

Lemma emitted_open (bs : list byte) :
  emitted (ESC :: SOF :: bs) (quiet (Awaiting AwaitFirst)) =
  emitted bs (quiet (Awaiting (AwaitData EmptyString))).
Proof. reflexivity. Qed.

(** The two bytes [ESC], [SOF] that close it. *)
Lemma feed_close (frame : string) (log : list string) :
  feed [ESC; SOF] (quiet (Awaiting (AwaitData frame))) log =
  Ok (quiet (Yielded frame), handled (Yielded frame) log).
Proof. reflexivity. Qed.

Lemma emitted_close (frame : string) :
  emitted [ESC; SOF] (quiet (Awaiting (AwaitData frame))) = [frame].
Proof. reflexivity. Qed.

(** A complete frame fed to the parser that waits for a start sequence. *)
Lemma feed_frame (data : list byte) (log : list string) :
  Forall (fun d => d <> ESC) data ->
  feed (ESC :: SOF :: data ++ [ESC; SOF]) (quiet (Awaiting AwaitFirst)) log =
  Ok (quiet (Yielded (string_of_list_byte data)), log ++ frames_handled data).
Proof.
  intros Hdata. rewrite feed_open, feed_app, feed_capture by assumption.
  cbn [bind]. rewrite feed_close, append_bytes_text. cbn [append].
  now rewrite handled_text.
Qed.

Lemma emitted_frame (data : list byte) :
  Forall (fun d => d <> ESC) data ->
  emitted (ESC :: SOF :: data ++ [ESC; SOF]) (quiet (Awaiting AwaitFirst)) =
  [string_of_list_byte data].
Proof.
  intros Hdata. rewrite emitted_open.
  rewrite emitted_app
    with (p := quiet (Awaiting (AwaitData (append_bytes EmptyString data))))
         (log := []) (l := [])
    by now apply feed_capture.
  rewrite emitted_capture by assumption.
  rewrite emitted_close, append_bytes_text. reflexivity.
Qed.

Lemma Forall_not_ESC (data : list byte) :
  Forall (fun d => d <> ESC /\ d <> SOF) data ->
  Forall (fun d => d <> ESC) data.
Proof. apply Forall_impl. now intros d [Hd _]. Qed.

(** An escape followed by a byte that is neither [SOF] nor [ESC], inside a
    frame. *)
Lemma next_out_of_sync (frame : string) (X : byte) :
  X <> SOF -> X <> ESC ->
  next (Awaiting (AwaitEscaped frame)) X = Awaiting AwaitFirst.
Proof.
  intros HS HE. unfold next. cbn [entry_point Parse_body].
  now rewrite (eqb_neq_sym SOF X HS), (eqb_neq_sym ESC X HE).
Qed.

Lemma feed_out_of_sync (frame : string) (X : byte) (log : list string) :
  X <> SOF -> X <> ESC ->
  feed [ESC; X] (quiet (Awaiting (AwaitData frame))) log =
  Ok (quiet (Awaiting AwaitFirst), log).
Proof.
  intros HS HE.
  rewrite feed_cons by (cbn; solve [discriminate | reflexivity]).
  change (next (point (quiet (Awaiting (AwaitData frame)))) ESC)
    with (Awaiting (AwaitEscaped frame)).
  rewrite feed_cons by (cbn; solve [discriminate | reflexivity]).
  cbn [quiet point]. now rewrite next_out_of_sync.
Qed.

Lemma emitted_out_of_sync (frame : string) (X : byte) :
  X <> SOF -> X <> ESC ->
  emitted [ESC; X] (quiet (Awaiting (AwaitData frame))) = [].
Proof.
  intros HS HE.
  rewrite emitted_cons by (cbn; discriminate).
  change (next (point (quiet (Awaiting (AwaitData frame)))) ESC)
    with (Awaiting (AwaitEscaped frame)).
  rewrite emitted_cons by (cbn; discriminate).
  cbn [quiet point]. now rewrite next_out_of_sync.
Qed.

(** ** Two sources, one parser *)

Lemma ProcessStream_total (bs : list byte) (g : FSM) (log : list string) :
  exists p l,
    feed bs g log = Ok (p, l) /\
    ProcessStream (ByteGenerator.sender bs) g log =
      Ok (drained bs (ByteGenerator.sender bs), p, l).
Proof.
  destruct (feed_total bs g log) as (p & l & Hfeed).
  exists p, l. split; [assumption |].
  now rewrite ProcessStream_sender, Hfeed.
Qed.

Lemma drained_done (rest : list byte) (c : ByteGenerator.coroutine) :
  ByteGenerator.done (drained rest c) = true.
Proof.
  revert c. induction rest as [| b rest IH]; intros c; cbn [drained].
  - reflexivity.
  - apply IH.
Qed.

(** ** Polling *)

Lemma delivered_keeps_value (g : FSM) (b : byte) :
  yielded (delivered g b) = [] ->
  mValue (promise (delivered g b)) = mValue (promise g).
Proof.
  unfold delivered, yielded.
  destruct (point g);
    try (match goal with |- context [Parse_body ?x ?y] =>
           destruct (Parse_body x y) end);
    cbn [point promise mValue]; solve [reflexivity | discriminate].
Qed.

Lemma signal_all_keeps_value (bs : list byte) :
  forall g g' : FSM,
    signal_all bs g = Ok (g', []) ->
    mValue (promise g') = mValue (promise g).
Proof.
  induction bs as [| b bs IH]; intros g g'; cbn [signal_all].
  - intros H. now inversion H.
  - rewrite SendSignal_delivered. cbn [bind].
    destruct (signal_all bs (delivered g b)) as [[g2 frames] |] eqn:E;
      cbn [bind]; [| discriminate].
    intros H. inversion H as [[Hg Hnil]]. subst g2.
    apply app_eq_nil in Hnil. destruct Hnil as [Hy Hf]. subst frames.
    rewrite (IH _ _ E). now apply delivered_keeps_value.
Qed.

(** ** The byte source *)

Lemma skipn_nth_error (bs : list byte) :
  forall (n : nat) (b : byte),
    nth_error bs n = Some b -> skipn n bs = b :: skipn (S n) bs.
Proof.
  induction bs as [| a bs IH]; intros [| n] b H; cbn in *; try discriminate.
  - now inversion H.
  - now apply IH.
Qed.

(** After [n] increments the coroutine of [sender bs] is suspended inside
    the [co_yield] of element [n]. *)
Lemma nth_iterator_yield (bs : list byte) (n : nat) :
  forall b : byte,
    nth_error bs n = Some b ->
    nth_iterator n (ByteGenerator.sender bs) =
    Ok ({| ByteGenerator.mCoroHdl := ByteGenerator.handle;
           ByteGenerator.mDone := false |},
        {| ByteGenerator.point := ByteGenerator.Yielded (skipn (S n) bs);
           ByteGenerator.fakeBytes := bs;
           ByteGenerator.promise := {| ByteGenerator.mValue := Some b |} |}).
Proof.
  induction n as [| n IH]; intros b Hn.
  - destruct bs as [| a rest]; cbn in Hn; [discriminate |].
    inversion Hn; subst. reflexivity.
  - assert (Hlt : n < length bs).
    { apply Nat.lt_succ_l. apply nth_error_Some. congruence. }
    destruct (nth_error bs n) as [a |] eqn:Ea;
      [| apply nth_error_None in Ea; lia].
    cbn [nth_iterator]. rewrite (IH a eq_refl). cbn [bind].
    unfold ByteGenerator.incr, ByteGenerator.iterator_resume,
      ByteGenerator.resume.
    cbn [ByteGenerator.mCoroHdl ByteGenerator.point bind].
    rewrite (skipn_nth_error bs (S n) b Hn). reflexivity.
Qed.

(** After as many increments as there are bytes it is finished. *)
Lemma nth_iterator_end (bs : list byte) :
  exists c,
    nth_iterator (length bs) (ByteGenerator.sender bs) =
      Ok ({| ByteGenerator.mCoroHdl := ByteGenerator.handle;
             ByteGenerator.mDone := true |}, c) /\
    ByteGenerator.done c = true.
Proof.
  destruct (length bs) as [| n] eqn:Hlen.
  - apply length_zero_iff_nil in Hlen. subst bs.
    eexists. split; reflexivity.
  - destruct (nth_error bs n) as [a |] eqn:Ea;
      [| apply nth_error_None in Ea; lia].
    cbn [nth_iterator]. rewrite (nth_iterator_yield bs n a Ea). cbn [bind].
    unfold ByteGenerator.incr, ByteGenerator.iterator_resume,
      ByteGenerator.resume.
    cbn [ByteGenerator.mCoroHdl ByteGenerator.point bind].
    rewrite skipn_all2 by lia.
    eexists. split; reflexivity.
Qed.

(** * The properties of the specification *)

(** C1. The bytes of the first stream of [main], fed to a new parser, make
    it yield exactly one frame, the text Hello, which is the one frame
    handed to [HandleFrame]; the bytes of the second stream, fed to the
    parser as the first stream left it, make it yield exactly one more
    frame, the text World. *)
Theorem C1_hello_world :
  fakeBytes1 =
    [x70; ESC; SOF; ESC; x48; x65; x6c; x6c; x6f; ESC; SOF; x07; ESC; SOF] /\
  fakeBytes2 = [x57; x6f; x72; x6c; x64; ESC; SOF; x99] /\
  ESC = x48 /\ SOF = x10 /\
  exists s1 p1 s2 p2,
    ProcessStream (ByteGenerator.sender fakeBytes1) Parse [] =
      Ok (s1, p1, ["Hello"]) /\
    emitted fakeBytes1 Parse = ["Hello"] /\
    ProcessStream (ByteGenerator.sender fakeBytes2) p1 [] =
      Ok (s2, p2, ["World"]) /\
    emitted fakeBytes2 p1 = ["World"] /\
    main = Ok (p2, ["Hello"; "World"]).
Proof.
  repeat (split; [reflexivity |]).
  do 4 eexists.
  split; [vm_compute; reflexivity |].
  split; [vm_compute; reflexivity |].
  split; [vm_compute; reflexivity |].
  split; vm_compute; reflexivity.
Qed.

(** C2, as the code has it.  In state CapturingAfterEsc a second [ESC] is
    taken as an escaped data byte: one [ESC] is appended to the frame
    buffer and the parser is back in Capturing, so the byte after it is
    read as an ordinary byte of the frame: [ESC] starts a new escape, any
    other byte is appended. *)
Theorem C2_escaped_escape (frame v : string) (sig : option byte) (b : byte) :
  let g := {| point := Awaiting (AwaitEscaped frame);
              promise := {| mValue := v; mRecentSignal := sig |} |} in
  let g1 := {| point := Awaiting (AwaitData (push_back frame ESC));
               promise := {| mValue := v; mRecentSignal := None |} |} in
  state_of (point g) = Some CapturingAfterEsc /\
  SendSignal g ESC = Ok g1 /\
  state_of (point g1) = Some Capturing /\
  SendSignal g1 b =
    Ok {| point :=
            Awaiting (if Byte.eqb ESC b
                      then AwaitEscaped (push_back frame ESC)
                      else AwaitData (push_back (push_back frame ESC) b));
          promise := {| mValue := v; mRecentSignal := None |} |}.
Proof.
  cbn zeta. rewrite !SendSignal_delivered. repeat split.
  unfold delivered. cbn [point entry_point Parse_body promise mValue].
  destruct (Byte.eqb ESC b); reflexivity.
Qed.

(** C2 as the specification words it fails: from CapturingAfterEsc with the
    frame buffer ab, [ESC] does not leave the parser in CapturingAfterEsc
    but in Capturing with the buffer abH, and a following [SOF] is appended
    to the buffer instead of completing the frame. *)
Lemma C2_escaped_escape_counterexample :
  let g := {| point := Awaiting (AwaitEscaped "ab");
              promise := {| mValue := ""; mRecentSignal := None |} |} in
  state_of (point g) = Some CapturingAfterEsc /\
  ~ (exists g1,
       SendSignal g ESC = Ok g1 /\
       state_of (point g1) = Some CapturingAfterEsc) /\
  SendSignal g ESC = Ok (quiet (Awaiting (AwaitData "abH"))) /\
  SendSignal (quiet (Awaiting (AwaitData "abH"))) SOF =
    Ok (quiet (Awaiting (AwaitData (push_back "abH" SOF)))) /\
  yielded (quiet (Awaiting (AwaitData (push_back "abH" SOF)))) = [].
Proof.
  intros g. split; [reflexivity |]. split.
  - intros (g1 & H1 & Hstate).
    vm_compute in H1. inversion H1; subst. vm_compute in Hstate. discriminate.
  - split; [vm_compute; reflexivity |].
    split; vm_compute; reflexivity.
Qed.

(** C3. For data bytes [data], none of them [ESC] or [SOF], the sequence
    [ESC], [SOF], [data], [ESC], [SOF] fed to a parser in Idle makes [Parse]
    yield exactly one frame, the text of [data], and leaves the parser in
    Idle; when no earlier value waits to be polled, that frame is all the
    driver hands to [HandleFrame], and it hands it over unless it is
    empty. *)
Theorem C3_single_frame (g : FSM) (data : list byte) :
  state_of (point g) = Some Idle ->
  Forall (fun d => d <> ESC /\ d <> SOF) data ->
  emitted (ESC :: SOF :: data ++ [ESC; SOF]) g = [string_of_list_byte data] /\
  exists s p l,
    ProcessStream (ByteGenerator.sender (ESC :: SOF :: data ++ [ESC; SOF])) g [] =
      Ok (s, p, l) /\
    p = quiet (Yielded (string_of_list_byte data)) /\
    state_of (point p) = Some Idle /\
    (mValue (promise g) = EmptyString -> l = frames_handled data).
Proof.
  intros Hidle Hdata. apply Forall_not_ESC in Hdata. split.
  - rewrite emitted_idle by assumption. now apply emitted_frame.
  - rewrite ProcessStream_sender, feed_idle by assumption.
    rewrite feed_frame by assumption. cbn [bind].
    do 3 eexists. split; [reflexivity |]. split; [reflexivity |].
    split; [reflexivity |].
    intros Hpolled. now rewrite stale_polled.
Qed.

Lemma C3_single_frame_witness :
  emitted (ESC :: SOF :: [x61; x62; x63] ++ [ESC; SOF]) Parse = ["abc"] /\
  exists s p,
    ProcessStream
      (ByteGenerator.sender (ESC :: SOF :: [x61; x62; x63] ++ [ESC; SOF]))
      Parse [] = Ok (s, p, ["abc"]) /\
    p = quiet (Yielded "abc").
Proof.
  destruct (C3_single_frame Parse [x61; x62; x63])
    as (He & s & p & l & HP & Hp & _ & Hl).
  - reflexivity.
  - repeat constructor; discriminate.
  - split; [exact He |]. exists s, p. split; [| exact Hp].
    rewrite HP, (Hl eq_refl). reflexivity.
Defined.

(** C4, as the code has it.  With data bytes [d1], [d2] that are not
    [ESC] and [X] neither [SOF] nor [ESC], the sequence [ESC], [SOF], [d1], [d2], [ESC], [X] fed to a parser
    in Idle runs without a fault and makes [Parse] yield nothing; the
    parser is left waiting at the first [co_await], in Idle, with no frame
    buffer and no value to poll; when no earlier value waited to be polled
    the driver hands nothing to [HandleFrame]; and a well-formed frame fed
    next is yielded exactly once and handed over unless it is empty. *)
Theorem C4_out_of_sync (g : FSM) (d1 d2 X : byte) (data : list byte) :
  state_of (point g) = Some Idle ->
  d1 <> ESC -> d2 <> ESC ->
  X <> SOF -> X <> ESC ->
  Forall (fun d => d <> ESC /\ d <> SOF) data ->
  emitted [ESC; SOF; d1; d2; ESC; X] g = [] /\
  exists s p l,
    ProcessStream (ByteGenerator.sender [ESC; SOF; d1; d2; ESC; X]) g [] =
      Ok (s, p, l) /\
    p = quiet (Awaiting AwaitFirst) /\
    state_of (point p) = Some Idle /\
    (mValue (promise g) = EmptyString -> l = []) /\
    emitted (ESC :: SOF :: data ++ [ESC; SOF]) p = [string_of_list_byte data] /\
    exists s' p',
      ProcessStream (ByteGenerator.sender (ESC :: SOF :: data ++ [ESC; SOF])) p [] =
        Ok (s', p', frames_handled data).
Proof.
  intros Hidle H1 H2 HS HE Hdata. apply Forall_not_ESC in Hdata.
  assert (Hd : Forall (fun d => d <> ESC) [d1; d2])
    by (repeat constructor; assumption).
  split.
  - rewrite emitted_idle by assumption. rewrite emitted_open.
    change [d1; d2; ESC; X] with ([d1; d2] ++ [ESC; X]).
    rewrite emitted_app
      with (p := quiet (Awaiting (AwaitData (append_bytes EmptyString [d1; d2]))))
           (log := []) (l := [])
      by now apply feed_capture.
    rewrite emitted_capture by assumption.
    now rewrite emitted_out_of_sync.
  - rewrite ProcessStream_sender, feed_idle by assumption.
    rewrite feed_open.
    change [d1; d2; ESC; X] with ([d1; d2] ++ [ESC; X]).
    rewrite feed_app, feed_capture by assumption. cbn [bind].
    rewrite feed_out_of_sync by assumption. cbn [bind].
    do 3 eexists. split; [reflexivity |]. split; [reflexivity |].
    split; [reflexivity |].
    split; [intros Hpolled; now apply stale_polled |].
    split; [now apply emitted_frame |].
    rewrite ProcessStream_sender, feed_frame by assumption. cbn [bind app].
    do 2 eexists. reflexivity.
Qed.

Lemma C4_out_of_sync_witness :
  emitted [ESC; SOF; x61; x62; ESC; x63] Parse = [] /\
  exists s p,
    ProcessStream (ByteGenerator.sender [ESC; SOF; x61; x62; ESC; x63]) Parse [] =
      Ok (s, p, []) /\
    p = quiet (Awaiting AwaitFirst) /\
    emitted (ESC :: SOF :: [x6f; x6b] ++ [ESC; SOF]) p = ["ok"] /\
    exists s' p',
      ProcessStream
        (ByteGenerator.sender (ESC :: SOF :: [x6f; x6b] ++ [ESC; SOF])) p [] =
        Ok (s', p', ["ok"]).
Proof.
  destruct (C4_out_of_sync Parse x61 x62 x63 [x6f; x6b])
    as (He & s & p & l & HP & Hp & _ & Hl & Hgood & Hdrv).
  - reflexivity.
  - discriminate.
  - discriminate.
  - discriminate.
  - discriminate.
  - repeat constructor; discriminate.
  - split; [exact He |]. exists s, p.
    split; [rewrite HP, (Hl eq_refl); reflexivity |].
    split; [exact Hp |]. split; [exact Hgood | exact Hdrv].
Defined.

(** C4 without the condition on [d1] and [d2] fails.  With [d2] = [ESC]
    the sequence [ESC], [SOF], a, [ESC], [ESC], c reads [ESC], [ESC] as an
    escaped byte and appends c: the parser is left in Capturing with the
    buffer aHc, not in Idle, and nothing is discarded.  With [d1] = [ESC]
    and [d2] = [SOF] the sequence [ESC], [SOF], [ESC], [SOF], [ESC], A
    completes the empty frame, so a frame is yielded. *)
Lemma C4_out_of_sync_counterexample :
  x63 <> SOF /\ x63 <> ESC /\ x41 <> SOF /\ x41 <> ESC /\
  ~ (exists s p l,
       ProcessStream
         (ByteGenerator.sender [ESC; SOF; x61; ESC; ESC; x63]) Parse [] =
         Ok (s, p, l) /\
       state_of (point p) = Some Idle) /\
  (exists s,
     ProcessStream
       (ByteGenerator.sender [ESC; SOF; x61; ESC; ESC; x63]) Parse [] =
       Ok (s, quiet (Awaiting (AwaitData "aHc")), [])) /\
  state_of (point (quiet (Awaiting (AwaitData "aHc")))) = Some Capturing /\
  emitted [ESC; SOF; ESC; SOF; ESC; x41] Parse = [EmptyString] /\
  emitted [ESC; SOF; ESC; SOF; ESC; x41] Parse <> [].
Proof.
  split; [discriminate |]. split; [discriminate |].
  split; [discriminate |]. split; [discriminate |].
  split.
  - intros (s & p & l & HP & Hstate).
    vm_compute in HP. inversion HP; subst. vm_compute in Hstate.
    discriminate.
  - split; [eexists; vm_compute; reflexivity |].
    split; [reflexivity |].
    split; [vm_compute; reflexivity |].
    vm_compute. discriminate.
Qed.

(** C5. Whatever bytes a source A delivers before it is exhausted, the
    parser it leaves behind goes on with a source B exactly as one source
    delivering the bytes of A and then those of B would make it: same final
    parser, same frames handled, same frames yielded.  In particular, when
    A delivers [ESC], [SOF] and the data bytes [data1] to a parser in Idle
    and B delivers the data bytes [data2] and [ESC], [SOF], A leaves the
    parser in Capturing with the frame buffer holding [data1] and nothing
    yielded, and B makes it yield the frame of [data1] followed by [data2]
    exactly once, which the driver hands over unless it is empty. *)
Theorem C5_state_persists (g : FSM) (log : list string) :
  (forall A B : list byte,
     exists sA pA lA sB sAB p l,
       ProcessStream (ByteGenerator.sender A) g log = Ok (sA, pA, lA) /\
       ByteGenerator.done sA = true /\
       ProcessStream (ByteGenerator.sender B) pA lA = Ok (sB, p, l) /\
       ProcessStream (ByteGenerator.sender (A ++ B)) g log = Ok (sAB, p, l) /\
       emitted (A ++ B) g = emitted A g ++ emitted B pA) /\
  (forall data1 data2 : list byte,
     state_of (point g) = Some Idle ->
     Forall (fun d => d <> ESC /\ d <> SOF) (data1 ++ data2) ->
     exists sA pA lA sB pB,
       ProcessStream (ByteGenerator.sender (ESC :: SOF :: data1)) g log =
         Ok (sA, pA, lA) /\
       ByteGenerator.done sA = true /\
       emitted (ESC :: SOF :: data1) g = [] /\
       (mValue (promise g) = EmptyString -> lA = log) /\
       pA = quiet (Awaiting (AwaitData (string_of_list_byte data1))) /\
       state_of (point pA) = Some Capturing /\
       ProcessStream (ByteGenerator.sender (data2 ++ [ESC; SOF])) pA lA =
         Ok (sB, pB, lA ++ frames_handled (data1 ++ data2)) /\
       emitted (data2 ++ [ESC; SOF]) pA =
         [string_of_list_byte (data1 ++ data2)]).
Proof.
  split.
  - intros A B.
    destruct (ProcessStream_total A g log) as (pA & lA & HfA & HA).
    destruct (ProcessStream_total B pA lA) as (p & l & HfB & HB).
    exists (drained A (ByteGenerator.sender A)), pA, lA,
           (drained B (ByteGenerator.sender B)),
           (drained (A ++ B) (ByteGenerator.sender (A ++ B))), p, l.
    split; [exact HA |]. split; [apply drained_done |].
    split; [exact HB |]. split.
    + now rewrite ProcessStream_sender, feed_app, HfA; cbn [bind]; rewrite HfB.
    + eapply emitted_app; eassumption.
  - intros data1 data2 Hidle Hdata. apply Forall_not_ESC in Hdata.
    apply Forall_app in Hdata. destruct Hdata as [Hd1 Hd2].
    assert (HfA : feed (ESC :: SOF :: data1) g log =
                  Ok (quiet (Awaiting (AwaitData (string_of_list_byte data1))),
                      stale g log)).
    { rewrite feed_idle, feed_open, feed_capture by assumption.
      now rewrite append_bytes_text. }
    exists (drained (ESC :: SOF :: data1)
              (ByteGenerator.sender (ESC :: SOF :: data1))),
           (quiet (Awaiting (AwaitData (string_of_list_byte data1)))),
           (stale g log),
           (drained (data2 ++ [ESC; SOF])
              (ByteGenerator.sender (data2 ++ [ESC; SOF]))),
           (quiet (Yielded (string_of_list_byte (data1 ++ data2)))).
    split; [now rewrite ProcessStream_sender, HfA |].
    split; [apply drained_done |].
    split.
    { rewrite emitted_idle, emitted_open by assumption.
      now apply emitted_capture. }
    split; [intros Hpolled; now apply stale_polled |].
    split; [reflexivity |]. split; [reflexivity |].
    split.
    + rewrite ProcessStream_sender, feed_app, feed_capture by assumption.
      cbn [bind]. rewrite feed_close, append_bytes_text, <- text_app.
      now rewrite handled_text.
    + rewrite emitted_app
        with (p := quiet (Awaiting (AwaitData
                     (append_bytes (string_of_list_byte data1) data2))))
             (log := []) (l := [])
        by now apply feed_capture.
      rewrite emitted_capture by assumption.
      now rewrite emitted_close, append_bytes_text, <- text_app.
Qed.

Lemma C5_state_persists_witness :
  exists sA pA sB pB,
    ProcessStream (ByteGenerator.sender (ESC :: SOF :: [x61; x62])) Parse [] =
      Ok (sA, pA, []) /\
    ByteGenerator.done sA = true /\
    emitted (ESC :: SOF :: [x61; x62]) Parse = [] /\
    pA = quiet (Awaiting (AwaitData "ab")) /\
    ProcessStream (ByteGenerator.sender ([x63] ++ [ESC; SOF])) pA [] =
      Ok (sB, pB, ["abc"]) /\
    emitted ([x63] ++ [ESC; SOF]) pA = ["abc"].
Proof.
  destruct (proj2 (C5_state_persists Parse []) [x61; x62] [x63])
    as (sA & pA & lA & sB & pB & HA & Hdone & HeA & HlA & HpA & _ & HB & HeB).
  - reflexivity.
  - repeat constructor; discriminate.
  - exists sA, pA, sB, pB.
    rewrite (HlA eq_refl) in HA, HB.
    split; [exact HA |]. split; [exact Hdone |]. split; [exact HeA |].
    split; [exact HpA |]. split; [exact HB | exact HeB].
Defined.

(** C6. Whatever the parser holds, the poll right after a poll returns the
    empty text, and so does a poll after any bytes signalled in between
    during which [Parse] completes no frame. *)
Theorem C6_poll_once (g : FSM) :
  fst (call (snd (call g))) = EmptyString /\
  forall (bs : list byte) (g' : FSM),
    signal_all bs (snd (call g)) = Ok (g', []) ->
    fst (call g') = EmptyString.
Proof.
  split; [reflexivity |].
  intros bs g' H. apply signal_all_keeps_value in H.
  cbn [call fst]. rewrite H. reflexivity.
Qed.

Lemma C6_poll_once_witness :
  let g := {| point := Yielded "Hello";
              promise := {| mValue := "Hello"; mRecentSignal := None |} |} in
  let g' := {| point := Awaiting (AwaitData "");
               promise := {| mValue := ""; mRecentSignal := None |} |} in
  fst (call g) = "Hello" /\
  signal_all [x07; ESC; SOF] (snd (call g)) = Ok (g', []) /\
  fst (call g') = "".
Proof.
  intros g g'. split; [reflexivity |]. split; [reflexivity |].
  apply (proj2 (C6_poll_once g) [x07; ESC; SOF] g'). reflexivity.
Defined.

(** C7. A byte sequence with no [ESC] and no [SOF] in it, fed to a parser
    in Idle, makes [Parse] yield no frame and leaves the parser in Idle;
    when no earlier value waits to be polled, the driver hands nothing to
    [HandleFrame] and leaves nothing to poll. *)
Theorem C7_idle_discards (g : FSM) (bs : list byte) :
  state_of (point g) = Some Idle ->
  Forall (fun b => b <> ESC /\ b <> SOF) bs ->
  emitted bs g = [] /\
  exists s p l,
    ProcessStream (ByteGenerator.sender bs) g [] = Ok (s, p, l) /\
    state_of (point p) = Some Idle /\
    (mValue (promise g) = EmptyString ->
     l = [] /\ mValue (promise p) = EmptyString).
Proof.
  intros Hidle Hbs. apply Forall_not_ESC in Hbs. split.
  - rewrite emitted_idle by assumption. now apply emitted_discard.
  - rewrite ProcessStream_sender. destruct bs as [| b bs].
    + cbn [feed bind]. do 3 eexists.
      split; [reflexivity |]. split; [assumption |]. now intros Hpolled.
    + rewrite feed_idle, feed_discard by assumption. cbn [bind].
      do 3 eexists. split; [reflexivity |]. split; [reflexivity |].
      intros Hpolled. split; [now apply stale_polled | reflexivity].
Qed.

Lemma C7_idle_discards_witness :
  emitted [x01; x02; x7a] Parse = [] /\
  exists s p,
    ProcessStream (ByteGenerator.sender [x01; x02; x7a]) Parse [] =
      Ok (s, p, []) /\
    state_of (point p) = Some Idle /\
    mValue (promise p) = EmptyString.
Proof.
  destruct (C7_idle_discards Parse [x01; x02; x7a])
    as (He & s & p & l & HP & Hst & Hl).
  - reflexivity.
  - repeat constructor; discriminate.
  - destruct (Hl eq_refl) as [Hnil Hv]. rewrite Hnil in HP.
    split; [exact He |]. exists s, p.
    split; [exact HP |]. split; [exact Hst | exact Hv].
Defined.

(** C8. The iterator over [sender bs] obtained from [begin] by [n]
    increments, that is after [n + 1] resumptions of the coroutine, is
    different from [end] and dereferences to element [n] of [bs] for every
    position [n] of [bs]; after [length bs] increments it is equal to [end]
    and the coroutine is finished. *)
Theorem C8_sender_in_order (bs : list byte) (n : nat) :
  (forall b : byte,
     nth_error bs n = Some b ->
     exists it c,
       nth_iterator n (ByteGenerator.sender bs) = Ok (it, c) /\
       ByteGenerator.iterator_eq it ByteGenerator.end_ = false /\
       ByteGenerator.deref it c = Ok b) /\
  (n = length bs ->
     exists it c,
       nth_iterator n (ByteGenerator.sender bs) = Ok (it, c) /\
       ByteGenerator.iterator_eq it ByteGenerator.end_ = true /\
       ByteGenerator.done c = true).
Proof.
  split.
  - intros b Hn. do 2 eexists.
    split; [exact (nth_iterator_yield bs n b Hn) |].
    split; reflexivity.
  - intros ->. destruct (nth_iterator_end bs) as (c & Hc & Hdone).
    do 2 eexists. split; [exact Hc |]. split; [reflexivity | exact Hdone].
Qed.

Lemma C8_sender_in_order_witness :
  (exists it c,
     nth_iterator 1 (ByteGenerator.sender [x57; x6f; x72]) = Ok (it, c) /\
     ByteGenerator.iterator_eq it ByteGenerator.end_ = false /\
     ByteGenerator.deref it c = Ok x6f) /\
  (exists it c,
     nth_iterator 3 (ByteGenerator.sender [x57; x6f; x72]) = Ok (it, c) /\
     ByteGenerator.iterator_eq it ByteGenerator.end_ = true /\
     ByteGenerator.done c = true).
Proof.
  split.
  - apply (proj1 (C8_sender_in_order [x57; x6f; x72] 1) x6f). reflexivity.
  - apply (proj2 (C8_sender_in_order [x57; x6f; x72] 3)). reflexivity.
Defined.

(** C9. [SendSignal] on a parser whose coroutine is not finished returns
    without a fault; the coroutine has taken the byte signalled and is
    suspended where the body of [Parse] goes with that one byte, not
    finished, and the slot of the signal is empty again, whatever it held
    before. *)
Theorem C9_signal_consumed (g : FSM) (b : byte) :
  done g = false ->
  exists g',
    SendSignal g b = Ok g' /\
    mRecentSignal (promise g') = None /\
    point g' = next (point g) b /\
    done g' = false.
Proof.
  intros Hlive. exists (delivered g b).
  assert (Hpt : point g <> FinalSuspend).
  { intros E. unfold done in Hlive. rewrite E in Hlive. discriminate. }
  split; [apply SendSignal_delivered |].
  split.
  - unfold delivered.
    destruct (point g); try contradiction;
      match goal with |- context [Parse_body ?x ?y] =>
        destruct (Parse_body x y) end; reflexivity.
  - split; [now apply delivered_point |].
    unfold done. rewrite delivered_point by assumption.
    pose proof (next_live (point g) b) as Hn.
    destruct (next (point g) b); solve [reflexivity | contradiction].
Qed.

Lemma C9_signal_consumed_witness :
  exists g',
    SendSignal (quiet (Awaiting (AwaitEscaped "Hello"))) SOF = Ok g' /\
    mRecentSignal (promise g') = None /\
    point g' = next (point (quiet (Awaiting (AwaitEscaped "Hello")))) SOF /\
    done g' = false.
Proof.
  apply (C9_signal_consumed (quiet (Awaiting (AwaitEscaped "Hello"))) SOF).
  reflexivity.
Defined.

(** C10. The sequence [ESC], [SOF], [ESC], [SOF] fed to a parser in Idle
    makes [Parse] complete and yield one frame, the empty text, and the
    poll that follows returns the empty text; when no earlier value waits
    to be polled, that is also what the poll after the first byte returns,
    where no frame was completed, and the driver hands nothing to
    [HandleFrame]. *)
Theorem C10_empty_frame (g : FSM) :
  state_of (point g) = Some Idle ->
  emitted [ESC; SOF; ESC; SOF] g = [EmptyString] /\
  (exists g4,
     signal_all [ESC; SOF; ESC; SOF] g = Ok (g4, [EmptyString]) /\
     point g4 = Yielded EmptyString /\
     fst (call g4) = EmptyString) /\
  (mValue (promise g) = EmptyString ->
   (exists g1,
      SendSignal g ESC = Ok g1 /\
      yielded g1 = [] /\
      fst (call g1) = EmptyString) /\
   exists s p,
     ProcessStream (ByteGenerator.sender [ESC; SOF; ESC; SOF]) g [] =
       Ok (s, p, [])).
Proof.
  intros Hidle. split; [| split].
  - rewrite emitted_idle by assumption. reflexivity.
  - destruct g as [pt [v sig]].
    destruct pt as [| [| | |] | |]; try discriminate;
      (exists (quiet (Yielded EmptyString));
       split; [cbn [signal_all]; now rewrite !SendSignal_delivered |];
       split; reflexivity).
  - intros Hpolled. split.
    + destruct g as [pt [v sig]]. cbn in Hpolled. subst v.
      destruct pt as [| [| | |] | |]; try discriminate;
        (eexists (delivered _ ESC);
         split; [apply SendSignal_delivered |];
         split; reflexivity).
    + rewrite ProcessStream_sender.
      rewrite feed_idle, stale_polled by assumption.
      do 2 eexists. reflexivity.
Qed.

Lemma C10_empty_frame_witness :
  emitted [ESC; SOF; ESC; SOF] Parse = [EmptyString] /\
  (exists g4,
     signal_all [ESC; SOF; ESC; SOF] Parse = Ok (g4, [EmptyString]) /\
     point g4 = Yielded EmptyString /\
     fst (call g4) = EmptyString) /\
  (exists g1,
     SendSignal Parse ESC = Ok g1 /\
     yielded g1 = [] /\
     fst (call g1) = EmptyString) /\
  exists s p,
    ProcessStream (ByteGenerator.sender [ESC; SOF; ESC; SOF]) Parse [] =
      Ok (s, p, []).
Proof.
  destruct (C10_empty_frame Parse) as (He & H4 & Hrest).
  - reflexivity.
  - split; [exact He |]. split; [exact H4 |]. exact (Hrest eq_refl).
Defined.

(** * Further properties of the code *)

(** ** Signals without polls *)

Lemma delivered_done (g : FSM) (b : byte) : done (delivered g b) = done g.
Proof.
  unfold delivered, done.
  destruct (point g);
    try (match goal with |- context [Parse_body ?x ?y] =>
           destruct (Parse_body x y) end);
    reflexivity.
Qed.

Lemma delivered_same_point (g h : FSM) (b : byte) :
  point g = point h -> point (delivered g b) = point (delivered h b).
Proof.
  unfold delivered. intros <-.
  destruct (point g);
    try (match goal with |- context [Parse_body ?x ?y] =>
           destruct (Parse_body x y) end);
    reflexivity.
Qed.

Lemma delivered_value (g : FSM) (b : byte) :
  mValue (promise (delivered g b)) =
  last (yielded (delivered g b)) (mValue (promise g)).
Proof.
  unfold delivered, yielded.
  destruct (point g);
    try (match goal with |- context [Parse_body ?x ?y] =>
           destruct (Parse_body x y) end);
    reflexivity.
Qed.

Lemma emitted_same_point (bs : list byte) :
  forall g h : FSM, point g = point h -> emitted bs g = emitted bs h.
Proof.
  induction bs as [| b bs IH]; intros g h Hpt; cbn [emitted]; [reflexivity |].
  rewrite !SendSignal_delivered.
  pose proof (delivered_same_point g h b Hpt) as Hd.
  unfold yielded. rewrite Hd. f_equal.
  apply IH. cbn [call snd point]. exact Hd.
Qed.

Lemma last_nonempty (A : Type) (l : list A) :
  forall a d d' : A, last (a :: l) d = last (a :: l) d'.
Proof.
  induction l as [| a' l IH]; intros a d d'; [reflexivity |].
  change (last (a' :: l) d = last (a' :: l) d'). apply IH.
Qed.

Lemma last_cons_default (A : Type) (a : A) (l : list A) (d : A) :
  last (a :: l) d = last l a.
Proof.
  destruct l as [| a' l]; [reflexivity |].
  change (last (a' :: l) d = last (a' :: l) a). apply last_nonempty.
Qed.

Lemma last_app_default (A : Type) (l1 l2 : list A) (d : A) :
  last (l1 ++ l2) d = last l2 (last l1 d).
Proof.
  revert d. induction l1 as [| a l1 IH]; intros d; [reflexivity |].
  cbn [app]. now rewrite !last_cons_default, IH.
Qed.

(** X1. [SendSignal] never fails the [assert] of [await_resume] and never
    resumes a finished coroutine, in whatever state the parser is, and it
    never changes whether the coroutine is finished: a live [Parse] stays
    live under any sequence of signals, and a finished coroutine is left
    where it is with the byte lying in the slot. *)
Theorem X1_signal_never_faults (g : FSM) (b : byte) (bs : list byte) :
  (exists g', SendSignal g b = Ok g' /\ done g' = done g) /\
  (exists g' frames, signal_all bs g = Ok (g', frames) /\ done g' = done g) /\
  (done g = true ->
   SendSignal g b =
   Ok {| point := point g;
         promise := {| mValue := mValue (promise g);
                       mRecentSignal := Some b |} |}).
Proof.
  split; [| split].
  - exists (delivered g b). split; [apply SendSignal_delivered |].
    apply delivered_done.
  - revert g. induction bs as [| a bs IH]; intros g; cbn [signal_all].
    + now exists g, [].
    + rewrite SendSignal_delivered. cbn [bind].
      destruct (IH (delivered g a)) as (g' & frames & Hs & Hd).
      rewrite Hs. cbn [bind]. do 2 eexists. split; [reflexivity |].
      now rewrite Hd, delivered_done.
  - intros Hdone. unfold SendSignal, done in *. cbn [point].
    now rewrite Hdone.
Qed.

Lemma X1_signal_never_faults_witness :
  SendSignal {| point := FinalSuspend; promise := mkPromise "x" None |} x41 =
  Ok {| point := FinalSuspend; promise := mkPromise "x" (Some x41) |}.
Proof.
  apply (proj2 (proj2 (X1_signal_never_faults
           {| point := FinalSuspend; promise := mkPromise "x" None |}
           x41 []))).
  reflexivity.
Defined.

(** X2. The parsing does not depend on the polls: signalling the bytes
    with no poll in between yields the same frames as the driver loop.
    But the promise keeps one value only: the poll that follows returns
    the last frame completed, the frames completed before it are lost, and
    when none was completed it returns what the promise held before. *)
Theorem X2_unpolled_frames_lost (bs : list byte) (g : FSM) :
  exists g',
    signal_all bs g = Ok (g', emitted bs g) /\
    fst (call g') = last (emitted bs g) (mValue (promise g)).
Proof.
  revert g. induction bs as [| b bs IH]; intros g; cbn [signal_all emitted].
  - now exists g.
  - rewrite SendSignal_delivered. cbn [bind].
    destruct (IH (delivered g b)) as (g' & Hs & Hpoll).
    rewrite Hs. cbn [bind]. exists g'.
    rewrite (emitted_same_point bs (snd (call (delivered g b))) (delivered g b))
      by reflexivity.
    split; [reflexivity |].
    now rewrite Hpoll, last_app_default, delivered_value.
Qed.

(** ** What the driver hands over *)

Lemma feed_handles (bs : list byte) :
  forall (g : FSM) (log : list string),
    mValue (promise g) = EmptyString ->
    exists p,
      feed bs g log = Ok (p, log ++ filter has_length (emitted bs g)) /\
      mValue (promise p) = EmptyString.
Proof.
  induction bs as [| b bs IH]; intros g log Hpolled; cbn [feed emitted].
  - exists g. now rewrite app_nil_r.
  - unfold ProcessStream_body. rewrite SendSignal_delivered. cbn [bind].
    pose proof (delivered_value g b) as Hv. rewrite Hpolled in Hv.
    cbn [call]. cbn [bind snd].
    match goal with |- context [feed bs ?h ?l] =>
      destruct (IH h l eq_refl) as (p & Hfeed & Hp) end.
    exists p. split; [| exact Hp]. rewrite Hfeed. rewrite Hv.
    rewrite filter_app, app_assoc. do 3 f_equal.
    unfold yielded, HandleFrame.
    destruct (point (delivered g b)); cbn [last filter]; try now rewrite app_nil_r.
    unfold has_length. destruct (negb (String.length frame =? 0)%nat);
      [reflexivity | now rewrite app_nil_r].
Qed.

(** X3. [ProcessStream] over a new [sender] runs to its end without a
    fault, whatever the bytes and the parser, and leaves the generator
    finished.  When no earlier value waits to be polled, the frames it
    hands to [HandleFrame] are exactly the frames [Parse] yields that are
    not empty, in their order, after what the log held. *)
Theorem X3_driver_handles_nonempty (bs : list byte) (g : FSM)
    (log : list string) :
  (exists s p l,
     ProcessStream (ByteGenerator.sender bs) g log = Ok (s, p, l) /\
     ByteGenerator.done s = true /\
     ByteGenerator.fakeBytes s = bs) /\
  (mValue (promise g) = EmptyString ->
   exists s p,
     ProcessStream (ByteGenerator.sender bs) g log =
       Ok (s, p, log ++ filter has_length (emitted bs g)) /\
     mValue (promise p) = EmptyString).
Proof.
  split.
  - destruct (ProcessStream_total bs g log) as (p & l & _ & HP).
    do 3 eexists. split; [exact HP |]. split; [apply drained_done |].
    assert (Hkeep : forall rest c,
               ByteGenerator.fakeBytes (drained rest c) =
               ByteGenerator.fakeBytes c).
    { induction rest as [| r rest IH]; intros c; cbn [drained].
      - reflexivity.
      - now rewrite IH. }
    now rewrite Hkeep.
  - intros Hpolled. destruct (feed_handles bs g log Hpolled) as (p & Hfeed & Hp).
    rewrite ProcessStream_sender, Hfeed. cbn [bind].
    do 2 eexists. split; [reflexivity | exact Hp].
Qed.

Lemma X3_driver_handles_nonempty_witness :
  exists s p,
    ProcessStream (ByteGenerator.sender (encode [] ++ encode [x61])) Parse [] =
      Ok (s, p, ["a"]) /\
    mValue (promise p) = EmptyString.
Proof.
  apply (proj2 (X3_driver_handles_nonempty (encode [] ++ encode [x61]) Parse [])).
  reflexivity.
Defined.

(** ** A parser in Idle is as good as new *)

Lemma stale_Parse (log : list string) : stale Parse log = log.
Proof. reflexivity. Qed.

(** X4. A parser that is in Idle, be it new, waiting at the first
    [co_await] or suspended in [co_yield] after a frame, yields on any
    bytes the frames a new parser yields on them; when no value waits to
    be polled and there is at least one byte, [ProcessStream] also ends
    with the same parser and the same frames handled. *)
Theorem X4_idle_as_new (g : FSM) (bs : list byte) (log : list string) :
  state_of (point g) = Some Idle ->
  emitted bs g = emitted bs Parse /\
  (mValue (promise g) = EmptyString ->
   bs <> [] ->
   ProcessStream (ByteGenerator.sender bs) g log =
   ProcessStream (ByteGenerator.sender bs) Parse log).
Proof.
  intros Hidle. split.
  - rewrite (emitted_idle g) by assumption.
    now rewrite (emitted_idle Parse) by reflexivity.
  - intros Hpolled Hbs. destruct bs as [| b bs]; [contradiction |].
    rewrite !ProcessStream_sender.
    rewrite (feed_idle g) by assumption.
    rewrite (feed_idle Parse) by reflexivity.
    now rewrite stale_polled, stale_Parse.
Qed.

Lemma X4_idle_as_new_witness :
  emitted (encode [x62]) (quiet (Yielded "a")) = emitted (encode [x62]) Parse /\
  ProcessStream (ByteGenerator.sender (encode [x62])) (quiet (Yielded "a")) [] =
  ProcessStream (ByteGenerator.sender (encode [x62])) Parse [].
Proof.
  destruct (X4_idle_as_new (quiet (Yielded "a")) (encode [x62]) [])
    as [He HP].
  - reflexivity.
  - split; [exact He |]. apply HP; [reflexivity | discriminate].
Defined.

(** ** Start sequences *)

Lemma next_no_start (frame : string) (X : byte) :
  X <> SOF -> next (Awaiting (AwaitSOF frame)) X = Awaiting AwaitFirst.
Proof.
  intros HS. unfold next. cbn [entry_point Parse_body].
  now rewrite (eqb_neq_sym SOF X HS).
Qed.

(** X5. In Idle, [ESC] followed by a byte [X] other than [SOF] starts no
    frame: nothing is yielded and the parser waits at the first [co_await]
    again.  [X] is dropped even when it is [ESC] itself, so [SOF] after
    two [ESC]s opens no frame either. *)
Theorem X5_no_start (g : FSM) (X : byte) :
  state_of (point g) = Some Idle ->
  X <> SOF ->
  emitted [ESC; X] g = [] /\
  (exists s l,
     ProcessStream (ByteGenerator.sender [ESC; X]) g [] =
       Ok (s, quiet (Awaiting AwaitFirst), l) /\
     (mValue (promise g) = EmptyString -> l = [])) /\
  emitted [ESC; ESC; SOF] g = [] /\
  exists s l,
    ProcessStream (ByteGenerator.sender [ESC; ESC; SOF]) g [] =
      Ok (s, quiet (Awaiting AwaitFirst), l).
Proof.
  intros Hidle HS.
  assert (Hstep : forall log,
             feed [ESC; X] (quiet (Awaiting AwaitFirst)) log =
             Ok (quiet (Awaiting AwaitFirst), log)).
  { intros log.
    rewrite feed_cons by (cbn; solve [discriminate | reflexivity]).
    change (next (point (quiet (Awaiting AwaitFirst))) ESC)
      with (Awaiting (AwaitSOF EmptyString)).
    rewrite feed_cons by (cbn; solve [discriminate | reflexivity]).
    cbn [quiet point]. now rewrite next_no_start. }
  split; [| split; [| split]].
  - rewrite emitted_idle by assumption.
    rewrite emitted_cons by (cbn; discriminate).
    change (next (point (quiet (Awaiting AwaitFirst))) ESC)
      with (Awaiting (AwaitSOF EmptyString)).
    rewrite emitted_cons by (cbn; discriminate).
    cbn [quiet point]. now rewrite next_no_start.
  - rewrite ProcessStream_sender, feed_idle, Hstep by assumption. cbn [bind].
    do 2 eexists. split; [reflexivity |]. intros Hpolled.
    now apply stale_polled.
  - rewrite emitted_idle by assumption. reflexivity.
  - rewrite ProcessStream_sender, feed_idle by assumption.
    do 2 eexists. reflexivity.
Qed.

Lemma X5_no_start_witness :
  emitted [ESC; x41] Parse = [] /\
  exists s,
    ProcessStream (ByteGenerator.sender [ESC; x41]) Parse [] =
      Ok (s, quiet (Awaiting AwaitFirst), []).
Proof.
  destruct (X5_no_start Parse x41) as (He & (s & l & HP & Hl) & _).
  - reflexivity.
  - discriminate.
  - split; [exact He |]. exists s. now rewrite HP, (Hl eq_refl).
Defined.

(** ** Escaped data *)

Lemma stuff_cons (d : byte) (data : list byte) :
  stuff (d :: data) = (if Byte.eqb ESC d then [ESC; d] else [d]) ++ stuff data.
Proof. reflexivity. Qed.

Lemma feed_stuff (data : list byte) :
  forall (frame : string) (log : list string),
    feed (stuff data) (quiet (Awaiting (AwaitData frame))) log =
    Ok (quiet (Awaiting (AwaitData (append_bytes frame data))), log).
Proof.
  induction data as [| d data IH]; intros frame log; [reflexivity |].
  rewrite stuff_cons. destruct (Byte.eqb ESC d) eqn:E.
  - apply byte_dec_bl in E. subst d.
    change (feed (stuff data)
              (quiet (Awaiting (AwaitData (push_back frame ESC)))) log =
            Ok (quiet (Awaiting (AwaitData
                  (append_bytes (push_back frame ESC) data))), log)).
    apply IH.
  - apply eqb_false in E. cbn [app].
    rewrite feed_cons by (cbn; solve [discriminate | reflexivity]).
    cbn [quiet point]. rewrite next_data by congruence.
    cbn [handled]. apply IH.
Qed.

Lemma emitted_stuff (data : list byte) :
  forall frame : string,
    emitted (stuff data) (quiet (Awaiting (AwaitData frame))) = [].
Proof.
  induction data as [| d data IH]; intros frame; [reflexivity |].
  rewrite stuff_cons. destruct (Byte.eqb ESC d) eqn:E.
  - apply byte_dec_bl in E. subst d.
    change (emitted (stuff data)
              (quiet (Awaiting (AwaitData (push_back frame ESC)))) = []).
    apply IH.
  - apply eqb_false in E. cbn [app].
    rewrite emitted_cons by (cbn; discriminate).
    cbn [quiet point]. rewrite next_data by congruence.
    cbn [yielded quiet point app]. apply IH.
Qed.

Lemma feed_encode (data : list byte) (log : list string) :
  feed (encode data) (quiet (Awaiting AwaitFirst)) log =
  Ok (quiet (Yielded (string_of_list_byte data)), log ++ frames_handled data).
Proof.
  unfold encode. rewrite feed_open, feed_app, feed_stuff. cbn [bind].
  rewrite feed_close, append_bytes_text. cbn [append].
  now rewrite handled_text.
Qed.

Lemma emitted_encode (data : list byte) :
  emitted (encode data) (quiet (Awaiting AwaitFirst)) =
  [string_of_list_byte data].
Proof.
  unfold encode. rewrite emitted_open.
  rewrite emitted_app
    with (p := quiet (Awaiting (AwaitData (append_bytes EmptyString data))))
         (log := []) (l := [])
    by apply feed_stuff.
  rewrite emitted_stuff, emitted_close, append_bytes_text. reflexivity.
Qed.

(** X6. Any bytes can travel in a frame: for every [data], with [ESC] and
    [SOF] among them or not, the bytes [ESC], [SOF], [data] with each
    [ESC] doubled, [ESC], [SOF] make a parser in Idle yield exactly one
    frame, whose characters are the bytes of [data]; so every string comes
    out as it went in.  The driver hands the frame over unless it is
    empty. *)
Theorem X6_stuffing_round_trip (g : FSM) (data : list byte) (text : string) :
  state_of (point g) = Some Idle ->
  emitted (encode data) g = [string_of_list_byte data] /\
  emitted (encode (list_byte_of_string text)) g = [text] /\
  exists s l,
    ProcessStream (ByteGenerator.sender (encode data)) g [] =
      Ok (s, quiet (Yielded (string_of_list_byte data)), l) /\
    (mValue (promise g) = EmptyString -> l = frames_handled data).
Proof.
  intros Hidle. split; [| split].
  - rewrite emitted_idle by assumption. apply emitted_encode.
  - rewrite emitted_idle by assumption.
    now rewrite emitted_encode, string_of_list_byte_of_string.
  - rewrite ProcessStream_sender. unfold encode at 1.
    rewrite feed_idle by assumption. fold (encode data).
    rewrite feed_encode. cbn [bind].
    do 2 eexists. split; [reflexivity |].
    intros Hpolled. now rewrite stale_polled.
Qed.

Lemma X6_stuffing_round_trip_witness :
  emitted (encode [ESC; SOF; x41]) Parse = [string_of_list_byte [ESC; SOF; x41]] /\
  emitted (encode (list_byte_of_string "Hello")) Parse = ["Hello"] /\
  exists s,
    ProcessStream (ByteGenerator.sender (encode [ESC; SOF; x41])) Parse [] =
      Ok (s, quiet (Yielded (string_of_list_byte [ESC; SOF; x41])),
          [string_of_list_byte [ESC; SOF; x41]]).
Proof.
  destruct (X6_stuffing_round_trip Parse [ESC; SOF; x41] "Hello")
    as (He & Ht & s & l & HP & Hl).
  - reflexivity.
  - split; [exact He |]. split; [exact Ht |].
    exists s. now rewrite HP, (Hl eq_refl).
Defined.

(** X7. Inside a frame, [ESC] followed by a byte [X] that is neither [SOF]
    nor [ESC] throws away whatever was captured, however long: nothing is
    yielded, [X] is dropped with it, and the parser waits at the first
    [co_await]. *)
Theorem X7_out_of_sync_drops_frame (g : FSM) (data : list byte) (X : byte) :
  state_of (point g) = Some Idle ->
  X <> SOF -> X <> ESC ->
  emitted (ESC :: SOF :: stuff data ++ [ESC; X]) g = [] /\
  exists s l,
    ProcessStream (ByteGenerator.sender (ESC :: SOF :: stuff data ++ [ESC; X])) g [] =
      Ok (s, quiet (Awaiting AwaitFirst), l) /\
    (mValue (promise g) = EmptyString -> l = []).
Proof.
  intros Hidle HS HE. split.
  - rewrite emitted_idle, emitted_open by assumption.
    rewrite emitted_app
      with (p := quiet (Awaiting (AwaitData (append_bytes EmptyString data))))
           (log := []) (l := [])
      by apply feed_stuff.
    now rewrite emitted_stuff, emitted_out_of_sync.
  - rewrite ProcessStream_sender, feed_idle, feed_open by assumption.
    rewrite feed_app, feed_stuff. cbn [bind].
    rewrite feed_out_of_sync by assumption. cbn [bind].
    do 2 eexists. split; [reflexivity |].
    intros Hpolled. now apply stale_polled.
Qed.

Lemma X7_out_of_sync_drops_frame_witness :
  emitted (ESC :: SOF :: stuff [x61; ESC; x62] ++ [ESC; x63]) Parse = [] /\
  exists s,
    ProcessStream
      (ByteGenerator.sender (ESC :: SOF :: stuff [x61; ESC; x62] ++ [ESC; x63]))
      Parse [] = Ok (s, quiet (Awaiting AwaitFirst), []).
Proof.
  destruct (X7_out_of_sync_drops_frame Parse [x61; ESC; x62] x63)
    as (He & s & l & HP & Hl).
  - reflexivity.
  - discriminate.
  - discriminate.
  - split; [exact He |]. exists s. now rewrite HP, (Hl eq_refl).
Defined.

(** ** Streams of frames *)

Lemma feed_part (g : FSM) (junk data : list byte) (log : list string) :
  state_of (point g) = Some Idle ->
  mValue (promise g) = EmptyString ->
  Forall (fun b => b <> ESC) junk ->
  feed (junk ++ encode data) g log =
  Ok (quiet (Yielded (string_of_list_byte data)), log ++ frames_handled data).
Proof.
  intros Hidle Hpolled Hjunk. destruct junk as [| b junk].
  - cbn [app]. unfold encode at 1. rewrite feed_idle by assumption.
    fold (encode data). rewrite stale_polled by assumption.
    apply feed_encode.
  - cbn [app]. rewrite feed_idle by assumption.
    rewrite stale_polled by assumption.
    change (b :: junk ++ encode data) with ((b :: junk) ++ encode data).
    rewrite feed_app, feed_discard by assumption. cbn [bind].
    apply feed_encode.
Qed.

Lemma emitted_part (junk data : list byte) :
  Forall (fun b => b <> ESC) junk ->
  emitted (junk ++ encode data) (quiet (Awaiting AwaitFirst)) =
  [string_of_list_byte data].
Proof.
  intros Hjunk.
  rewrite emitted_app with (p := quiet (Awaiting AwaitFirst))
                           (log := []) (l := [])
    by now apply feed_discard.
  now rewrite emitted_discard, emitted_encode.
Qed.

Lemma feed_stream (tail : list byte) (parts : list (list byte * list byte)) :
  forall (g : FSM) (log : list string),
    state_of (point g) = Some Idle ->
    mValue (promise g) = EmptyString ->
    Forall (fun part => Forall (fun b => b <> ESC) (fst part)) parts ->
    Forall (fun b => b <> ESC) tail ->
    exists p,
      feed (stream_of parts ++ tail) g log =
        Ok (p, log ++ flat_map (fun part => frames_handled (snd part)) parts) /\
      state_of (point p) = Some Idle /\
      mValue (promise p) = EmptyString /\
      emitted (stream_of parts ++ tail) g =
        map (fun part => string_of_list_byte (snd part)) parts.
Proof.
  induction parts as [| [junk data] parts IH];
    intros g log Hidle Hpolled Hparts Htail.
  - cbn [stream_of flat_map app map]. rewrite app_nil_r.
    rewrite emitted_idle, emitted_discard by assumption.
    destruct tail as [| b tail].
    + exists g. now repeat split.
    + rewrite feed_idle, stale_polled, feed_discard by assumption.
      exists (quiet (Awaiting AwaitFirst)). now repeat split.
  - inversion Hparts as [| ? ? Hjunk Hrest]; subst. cbn [fst] in Hjunk.
    cbn [stream_of flat_map map fst snd]. fold (stream_of parts).
    rewrite <- !app_assoc.
    change (junk ++ encode data ++ stream_of parts ++ tail)
      with (junk ++ encode data ++ (stream_of parts ++ tail)).
    rewrite (app_assoc junk).
    pose proof (feed_part g junk data log Hidle Hpolled Hjunk) as Hpart.
    destruct (IH (quiet (Yielded (string_of_list_byte data)))
                 (log ++ frames_handled data))
      as (p & Hfeed & Hp & Hv & Hem); try solve [reflexivity | assumption].
    exists p. split; [| split; [exact Hp | split; [exact Hv |]]].
    + rewrite feed_app, Hpart. cbn [bind]. rewrite Hfeed.
      now rewrite <- app_assoc.
    + rewrite (emitted_app _ _ _ _ _ _ Hpart), Hem.
      rewrite emitted_idle by assumption.
      now rewrite emitted_part.
Qed.

(** X8. A stream of frames, each sent as [ESC], [SOF], its data with
    every [ESC] doubled, [ESC], [SOF], with bytes other than [ESC] before,
    between and after them, makes a parser in Idle yield exactly the data
    of the frames, in their order, and leaves it in Idle; the driver hands
    over those that are not empty. *)
Theorem X8_stream_of_frames (g : FSM) (parts : list (list byte * list byte))
    (tail : list byte) :
  state_of (point g) = Some Idle ->
  Forall (fun part => Forall (fun b => b <> ESC) (fst part)) parts ->
  Forall (fun b => b <> ESC) tail ->
  emitted (stream_of parts ++ tail) g =
    map (fun part => string_of_list_byte (snd part)) parts /\
  (mValue (promise g) = EmptyString ->
   exists s p,
     ProcessStream (ByteGenerator.sender (stream_of parts ++ tail)) g [] =
       Ok (s, p, flat_map (fun part => frames_handled (snd part)) parts) /\
     state_of (point p) = Some Idle).
Proof.
  intros Hidle Hparts Htail. split.
  - rewrite emitted_idle by assumption.
    destruct (feed_stream tail parts (quiet (Awaiting AwaitFirst)) [])
      as (p & _ & _ & _ & Hem); solve [reflexivity | assumption].
  - intros Hpolled.
    destruct (feed_stream tail parts g [] Hidle Hpolled Hparts Htail)
      as (p & Hfeed & Hp & _).
    rewrite ProcessStream_sender, Hfeed. cbn [bind app].
    do 2 eexists. split; [reflexivity | exact Hp].
Qed.

Lemma X8_stream_of_frames_witness :
  emitted (stream_of [([x70], [ESC; x65]); ([x07], []); ([], [x57])] ++ [x99])
          Parse =
    [string_of_list_byte [ESC; x65]; ""; "W"] /\
  exists s p,
    ProcessStream
      (ByteGenerator.sender
         (stream_of [([x70], [ESC; x65]); ([x07], []); ([], [x57])] ++ [x99]))
      Parse [] = Ok (s, p, [string_of_list_byte [ESC; x65]; "W"]) /\
    state_of (point p) = Some Idle.
Proof.
  destruct (X8_stream_of_frames Parse
              [([x70], [ESC; x65]); ([x07], []); ([], [x57])] [x99])
    as [He HP].
  - reflexivity.
  - repeat constructor; discriminate.
  - repeat constructor; discriminate.
  - split; [exact He |]. exact (HP eq_refl).
Defined.

(** ** How often a frame can come *)

Lemma delivered_progress (g : FSM) (b : byte) :
  4 * length (yielded (delivered g b)) + progress (point (delivered g b)) <=
  1 + progress (point g).
Proof.
  unfold delivered, yielded.
  destruct (point g) as [| [| frame | frame | frame] | frame |];
    cbn [entry_point Parse_body];
    repeat match goal with
           | |- context [Byte.eqb ?x ?y] => destruct (Byte.eqb x y)
           end;
    cbn; lia.
Qed.

Lemma emitted_progress (bs : list byte) :
  forall g : FSM,
    4 * length (emitted bs g) <= length bs + progress (point g).
Proof.
  induction bs as [| b bs IH]; intros g; cbn [emitted length]; [lia |].
  rewrite SendSignal_delivered, length_app.
  pose proof (delivered_progress g b) as Hstep.
  pose proof (IH (snd (call (delivered g b)))) as Hrest.
  change (point (snd (call (delivered g b))))
    with (point (delivered g b)) in Hrest.
  lia.
Qed.

(** X9. A parser in Idle never yields more than one frame for every four
    bytes it is sent. *)
Theorem X9_four_bytes_a_frame (g : FSM) (bs : list byte) :
  state_of (point g) = Some Idle ->
  4 * length (emitted bs g) <= length bs.
Proof.
  intros Hidle. pose proof (emitted_progress bs g) as H.
  destruct (point g) as [| [| | |] | |]; try discriminate; cbn in H; lia.
Qed.

Lemma X9_four_bytes_a_frame_witness :
  4 * length (emitted (encode [] ++ encode []) Parse) <=
  length (encode [] ++ encode []).
Proof.
  apply (X9_four_bytes_a_frame Parse (encode [] ++ encode [])). reflexivity.
Defined.

(** ** One pass over a generator *)

Lemma drained_point (rest : list byte) (c : ByteGenerator.coroutine) :
  ByteGenerator.point (drained rest c) = ByteGenerator.FinalSuspend.
Proof.
  revert c. induction rest as [| b rest IH]; intros c; cbn [drained].
  - reflexivity.
  - apply IH.
Qed.

(** X10. A generator that [ProcessStream] has run over cannot be run over
    again: its coroutine is finished, and [begin], every increment of an
    iterator and so [ProcessStream] itself would resume it once more;
    likewise the increment of the iterator that has reached [end]. *)
Theorem X10_sender_single_pass (bs : list byte) (g : FSM) (log : list string) :
  exists s p l,
    ProcessStream (ByteGenerator.sender bs) g log = Ok (s, p, l) /\
    ByteGenerator.begin s = Fault /\
    (forall it, ByteGenerator.incr it s = Fault) /\
    (forall g2 log2, ProcessStream s g2 log2 = Fault) /\
    nth_iterator (S (length bs)) (ByteGenerator.sender bs) = Fault.
Proof.
  destruct (ProcessStream_total bs g log) as (p & l & _ & HP).
  pose proof (drained_point bs (ByteGenerator.sender bs)) as Hpt.
  assert (Hbegin : ByteGenerator.begin
                     (drained bs (ByteGenerator.sender bs)) = Fault).
  { unfold ByteGenerator.begin, ByteGenerator.iterator_resume,
      ByteGenerator.resume.
    cbn [ByteGenerator.mCoroHdl]. now rewrite Hpt. }
  do 3 eexists. split; [exact HP |]. split; [exact Hbegin |].
  split; [| split].
  - intros it. unfold ByteGenerator.incr, ByteGenerator.iterator_resume,
      ByteGenerator.resume.
    destruct (ByteGenerator.mCoroHdl it); [reflexivity |]. now rewrite Hpt.
  - intros g2 log2. unfold ProcessStream. now rewrite Hbegin.
  - destruct (nth_iterator_end bs) as (c & Hc & Hdone).
    cbn [nth_iterator]. rewrite Hc. cbn [bind].
    unfold ByteGenerator.incr, ByteGenerator.iterator_resume,
      ByteGenerator.resume. cbn [ByteGenerator.mCoroHdl].
    unfold ByteGenerator.done in Hdone.
    destruct (ByteGenerator.point c); solve [discriminate | reflexivity].
Qed.

(** X11. The iterators of a generator share its coroutine and [begin]
    does not start over: a second [begin] resumes the coroutine like an
    increment, so it stands at the second byte, and the iterator obtained
    first, dereferenced now, gives the second byte as well. *)
Theorem X11_iterators_share (a b : byte) (rest : list byte) :
  exists it1 c1 it2 c2,
    ByteGenerator.begin (ByteGenerator.sender (a :: b :: rest)) = Ok (it1, c1) /\
    ByteGenerator.deref it1 c1 = Ok a /\
    ByteGenerator.begin c1 = Ok (it2, c2) /\
    ByteGenerator.deref it2 c2 = Ok b /\
    ByteGenerator.deref it1 c2 = Ok b /\
    ByteGenerator.incr it1 c1 = Ok (it2, c2).
Proof.
  do 4 eexists.
  split; [reflexivity |]. split; [reflexivity |].
  split; [reflexivity |]. split; [reflexivity |].
  split; reflexivity.
Qed.

(** ** [add] *)

Lemma add_fault (args : list Z) :
  fold_left (fun acc y => x <- acc ;; SimpleRequirement.plus x y) args Fault =
  Fault.
Proof. induction args as [| y ys IH]; [reflexivity | exact IH]. Qed.

(** X12. [add] at [int] arguments returns a value exactly when every sum
    on the way, taken from the left, is an [int], and the value is then
    the sum of all arguments; a single argument is returned as it is. *)
Theorem X12_add_sums (arg : Z) (args : list Z) (r : Z) :
  SimpleRequirement.add arg args = Ok r <->
  r = fold_left Z.add args arg /\
  forall k : nat,
    1 <= k <= length args ->
    SimpleRequirement.in_int (SimpleRequirement.running_sum arg args k) = true.
Proof.
  unfold SimpleRequirement.add, SimpleRequirement.running_sum.
  revert arg. induction args as [| y ys IH]; intros arg.
  - cbn. split.
    + intros H. inversion H. split; [reflexivity |]. intros k Hk. lia.
    + intros [-> _]. reflexivity.
  - cbn [fold_left bind]. unfold SimpleRequirement.plus at 2.
    destruct (SimpleRequirement.in_int (arg + y)) eqn:E.
    + rewrite IH. split.
      * intros [Hr Hk]. split; [exact Hr |].
        intros [| [| k]] Hlen; cbn [length] in Hlen; [lia | exact E |].
        cbn [firstn fold_left]. apply (Hk (S k)). lia.
      * intros [Hr Hk]. split; [exact Hr |].
        intros k Hlen. apply (Hk (S k)). cbn [length]. lia.
    + rewrite add_fault. split; [discriminate |].
      intros [_ Hk]. specialize (Hk 1). cbn in Hk.
      rewrite E in Hk. cbn [length] in Hk.
      assert (false = true) by (apply Hk; lia). discriminate.
Qed.

Lemma X12_add_sums_witness :
  SimpleRequirement.add 2 [3; 4]%Z = Ok 9%Z /\
  SimpleRequirement.add 2 [] = Ok 2%Z /\
  SimpleRequirement.add SimpleRequirement.INT_MAX [1; -1]%Z = Fault.
Proof.
  split; [| split; reflexivity].
  apply (proj2 (X12_add_sums 2 [3; 4]%Z 9)).
  split; [reflexivity |].
  intros [| [| [| k]]] Hk; cbn [length] in Hk;
    solve [lia | reflexivity].
Defined.
